(** * CodenamesServer: session lifecycle, state merge and turn engine

    A shallow embedding of the socket handlers of [src/index.js]
    (lines 97-299): the registry [activeGames], the derived-state
    computation, the reconnect merge, session creation, the four socket
    handlers and the hourly sweep, followed by the properties of the
    specification that concern them.

    Modelling conventions.
    - The payload fields are JSON: [words] and [colors] are arrays of
      strings or absent, [gameState] is an object or absent whose
      [revealed] is an array of booleans or absent and whose [currentTeam]
      is a string or absent, [gameKey] is a string and [cardIndex] an
      integer.
    - A value stored in a [revealed] array is only ever used in a boolean
      context ([!revealed[i]], [&& revealed[i]], [if (revealed[i])],
      [isRevealed || ...]); a slot records its truthiness.
    - [Date.now()] is read once per handler run and passed as [now].
    - [gameStats.addGame] and [gameStats.completeGame] throw a TypeError
      while the statistics are not loaded ([this.stats] is [null] from the
      constructor until [loadStats] has read the file, stats.js 137 and
      150-165) and return afterwards; the model of stats.js below proves
      both. The handlers do not track the loading: every message comes with
      the fact [statsLoaded], and an exception ends the handler at the call
      that throws, after everything the handler did before it.
    - The spec's colour [assassin] is the string "black" in the code; the
      winner it produces is the string "assassin". *)

From stdpp Require Import base option list gmap strings.
From Stdlib Require Import ZArith Lia.

Local Open Scope string_scope.
Local Open Scope list_scope.

(** ** JavaScript arrays of flags *)

Module JsArray.

(** A slot of the array: a hole (never written, skipped by [map]) or an
    element, kept as its truthiness. *)
Inductive slot : Type :=
| Hole
| Elem (b : bool).

(** [elems] are the indexed slots (its length is the array's [length]);
    [props] are the integer keys that are not array indices and have been
    assigned [true] (for instance [a[-1] = true]). *)
Record t : Type := Make { elems : list slot; props : gset Z }.

(** An integer key is an array index when it lies in [0, 2^32 - 2]. *)
Definition is_index (k : Z) : bool :=
  bool_decide (0 ≤ k)%Z && bool_decide (k < 4294967295)%Z.

(** [Array(n).fill(b)] *)
Definition fill (n : nat) (b : bool) : t :=
  {| elems := replicate n (Elem b); props := ∅ |}.

(** An array parsed from JSON: no holes, no extra properties. *)
Definition of_list (l : list bool) : t :=
  {| elems := Elem <$> l; props := ∅ |}.

(** Truthiness of [a[i]] for an iteration index [i]. *)
Definition at_index (a : t) (i : nat) : bool :=
  match elems a !! i with
  | Some (Elem b) => b
  | _ => false
  end.

(** Truthiness of [a[k]] for an arbitrary integer key. *)
Definition get (a : t) (k : Z) : bool :=
  if is_index k then at_index a (Z.to_nat k) else bool_decide (k ∈ props a).

(** Writing [true] at index [i]: in place when [i < length], otherwise the
    array grows to length [i + 1] and the skipped slots are holes. *)
Definition store (i : nat) (l : list slot) : list slot :=
  if decide (i < length l) then <[i := Elem true]> l
  else l ++ replicate (i - length l) Hole ++ [Elem true].

(** [a[k] = true] *)
Definition set_true (a : t) (k : Z) : t :=
  if is_index k then {| elems := store (Z.to_nat k) (elems a); props := props a |}
  else {| elems := elems a; props := {[k]} ∪ props a |}.

(** [a.map(f)]: the callback sees the element and its index, holes are
    skipped and stay holes, a callback that throws ([None]) aborts the
    whole call, and the result is a fresh array (no extra properties). *)
Fixpoint map_from (f : bool → nat → option bool) (i : nat) (l : list slot)
  : option (list slot) :=
  match l with
  | [] => Some []
  | Hole :: l' => l'' ← map_from f (S i) l'; Some (Hole :: l'')
  | Elem b :: l' =>
      b' ← f b i; l'' ← map_from f (S i) l'; Some (Elem b' :: l'')
  end.

Definition map (f : bool → nat → option bool) (a : t) : option t :=
  l ← map_from f 0 (elems a); Some {| elems := l; props := ∅ |}.

End JsArray.

(** ** Array methods on the (hole-free) [colors] array *)

(** [l.reduce((acc, x, i) => f(acc, x, i), init)] *)
Fixpoint reduce_from {A B : Type} (f : B → A → nat → B) (i : nat) (l : list A) (acc : B) : B :=
  match l with
  | [] => acc
  | x :: l' => reduce_from f (S i) l' (f acc x i)
  end.

Definition reduce {A B : Type} (f : B → A → nat → B) (l : list A) (init : B) : B :=
  reduce_from f 0 l init.

(** [l.some((x, i) => p(x, i))] *)
Fixpoint some_from {A : Type} (p : A → nat → bool) (i : nat) (l : list A) : bool :=
  match l with
  | [] => false
  | x :: l' => p x i || some_from p (S i) l'
  end.

Definition some {A : Type} (p : A → nat → bool) (l : list A) : bool :=
  some_from p 0 l.

(** [l[k]] for an integer key; [None] is [undefined]. *)
Definition nth_key {A : Type} (l : list A) (k : Z) : option A :=
  if JsArray.is_index k then l !! Z.to_nat k else None.

(** ** Sessions *)

Record RemainingCards : Type := { blue : nat; red : nat }.

(** The session object built by [createNewGameState]. [winner] is [null]
    ([None]) or one of the strings "assassin", "blue", "red". *)
Record Game : Type := {
  words : list string;
  colors : list string;
  revealed : JsArray.t;
  currentTeam : string;
  remainingCards : RemainingCards;
  gameOver : bool;
  winner : option string;
  lastActivity : Z;
  players : gset string;
}.

Definition set_revealed (r : JsArray.t) (g : Game) : Game :=
  {| words := words g; colors := colors g; revealed := r;
     currentTeam := currentTeam g; remainingCards := remainingCards g;
     gameOver := gameOver g; winner := winner g;
     lastActivity := lastActivity g; players := players g |}.

Definition set_currentTeam (t : string) (g : Game) : Game :=
  {| words := words g; colors := colors g; revealed := revealed g;
     currentTeam := t; remainingCards := remainingCards g;
     gameOver := gameOver g; winner := winner g;
     lastActivity := lastActivity g; players := players g |}.

Definition set_lastActivity (now : Z) (g : Game) : Game :=
  {| words := words g; colors := colors g; revealed := revealed g;
     currentTeam := currentTeam g; remainingCards := remainingCards g;
     gameOver := gameOver g; winner := winner g;
     lastActivity := now; players := players g |}.

Definition set_players (p : gset string) (g : Game) : Game :=
  {| words := words g; colors := colors g; revealed := revealed g;
     currentTeam := currentTeam g; remainingCards := remainingCards g;
     gameOver := gameOver g; winner := winner g;
     lastActivity := lastActivity g; players := p |}.

(** The [gameState] object a client carries in [JOIN_GAME]. *)
Record GameState : Type := {
  gs_revealed : option (list bool);
  gs_currentTeam : option string;
}.

(** *** calculateDerivedState (index.js 99-112) *)

(** The values computed on lines 100-109, before [Object.assign]. *)
Definition derive (colors : list string) (revealed : JsArray.t)
  : RemainingCards * bool * option string :=
  let remainingCards :=
    {| blue := reduce (λ sum c i,
                 sum + (if bool_decide (c = "blue") && negb (JsArray.at_index revealed i)
                        then 1 else 0)) colors 0;
       red := reduce (λ sum c i,
                 sum + (if bool_decide (c = "red") && negb (JsArray.at_index revealed i)
                        then 1 else 0)) colors 0 |} in
  let isBlackRevealed :=
    some (λ c i, bool_decide (c = "black") && JsArray.at_index revealed i) colors in
  let isBlueWin := bool_decide (blue remainingCards = 0) in
  let isRedWin := bool_decide (red remainingCards = 0) in
  let gameOver := isBlackRevealed || isBlueWin || isRedWin in
  let winner :=
    if isBlackRevealed then Some "assassin"
    else if isBlueWin then Some "blue"
    else if isRedWin then Some "red"
    else None in
  (remainingCards, gameOver, winner).

Definition calculateDerivedState (game : Game) : Game :=
  let '(remainingCards, gameOver, winner) := derive (colors game) (revealed game) in
  {| words := words game; colors := colors game; revealed := revealed game;
     currentTeam := currentTeam game; remainingCards := remainingCards;
     gameOver := gameOver; winner := winner;
     lastActivity := lastActivity game; players := players game |}.

(** *** mergeGameStates (index.js 114-118) *)

(** The callback [(isRevealed, index) => isRevealed || newState.revealed[index]].
    [||] short-circuits, so [newState.revealed] is only read for a falsy
    element; reading an index of an absent [revealed] throws a TypeError
    ([None]). *)
Definition or_incoming (newState : GameState) (isRevealed : bool) (index : nat)
  : option bool :=
  if isRevealed then Some true
  else match gs_revealed newState with
       | None => None
       | Some inc => Some (default false (inc !! index))
       end.

(** Returns the merged session, or [newState] itself when there is no base
    state; [None] when the callback throws. *)
Definition mergeGameStates (baseState : option Game) (newState : GameState)
  : option (Game + GameState) :=
  match baseState with
  | None => Some (inr newState)
  | Some base =>
      revealed ← JsArray.map (or_incoming newState) (revealed base);
      Some (inl (set_revealed revealed base))
  end.

(** *** createNewGameState (index.js 120-140) *)

(** [words = []] and [colors = []] are the defaults of absent arguments;
    [x || y] on a string takes [y] when [x] is absent or empty, on an array
    only when it is absent. *)
Definition createNewGameState (now : Z) (gameKey : string)
    (words colors : option (list string)) (savedState : option GameState) : Game :=
  let game :=
    {| words := default [] words;
       colors := default [] colors;
       revealed := JsArray.fill 25 false;
       currentTeam := "blue";
       remainingCards := {| blue := 0; red := 0 |};
       gameOver := false;
       winner := None;
       lastActivity := now;
       players := ∅ |} in
  let game :=
    match savedState with
    | Some saved =>
        let game :=
          set_revealed (default (revealed game) (JsArray.of_list <$> gs_revealed saved)) game in
        set_currentTeam
          (match gs_currentTeam saved with
           | Some t => if bool_decide (t = "") then currentTeam game else t
           | None => currentTeam game
           end) game
    | None => game
    end in
  calculateDerivedState game.

(** ** The server *)

(** [activeGames] is the module-level [Map]; [currentGames] holds, for every
    connected socket id, the variable [currentGame] of its connection
    closure (absent means [null]). *)
Record Server : Type := {
  activeGames : gmap string Game;
  currentGames : gmap string string;
}.

Definition initial : Server := {| activeGames := ∅; currentGames := ∅ |}.

(** What a handler does to the outside: room membership, emitted messages,
    calls to the statistics collaborator, and an exception that leaves the
    handler. *)
Inductive event : Type :=
| socket_join (socket room : string)
| socket_leave (socket room : string)
| emit_GAME_STATE (room : string) (game : Game)
| emit_PLAYER_JOINED (sender room playerId : string) (playerCount : nat)
| stats_addGame (gameKey : string)
| stats_completeGame (gameKey : string)
| stats_removeGame (gameKey : string)
| uncaught_TypeError.

(** *** leaveCurrentGame (index.js 147-159) *)

(** [if (currentGame)] is false for [null] and for the empty string. *)
Definition leaveCurrentGame (socket : string) (now : Z) (s : Server)
  : Server * list event :=
  match currentGames s !! socket with
  | Some currentGame =>
      if bool_decide (currentGame = "") then (s, [])
      else
        let games :=
          match activeGames s !! currentGame with
          | Some game =>
              let game := set_players (players game ∖ {[socket]}) game in
              let game :=
                if bool_decide (size (players game) = 0)
                then set_lastActivity now game else game in
              <[currentGame := game]> (activeGames s)
          | None => activeGames s
          end in
        ({| activeGames := games; currentGames := delete socket (currentGames s) |},
         [socket_leave socket currentGame])
  | None => (s, [])
  end.

(** *** JOIN_GAME (index.js 161-207) *)

(** [merged.revealed] of the value returned by [mergeGameStates]. The
    handler always passes a session as the base state, so the second case is
    never taken (lemma [mergeGameStates_session]). *)
Definition merged_revealed (merged : Game + GameState) : option JsArray.t :=
  match merged with
  | inl game => Some (revealed game)
  | inr newState => JsArray.of_list <$> gs_revealed newState
  end.

(** [created] holds the call of line 176 when the session is created, and
    [added] tells whether control passes that line: [gameStats.addGame]
    throws while the statistics are not loaded. *)
Definition on_JOIN_GAME (statsLoaded : bool) (socket : string) (now : Z)
    (gameKey : string) (words colors : option (list string))
    (gameState : option GameState) (s : Server) : Server * list event :=
  let '(s, departed) := leaveCurrentGame socket now s in
  let game := activeGames s !! gameKey in
  let '(s, game, created, added) :=
    match game, words, colors with
    | None, Some _, Some _ =>
        let game := createNewGameState now gameKey words colors gameState in
        ({| activeGames := <[gameKey := game]> (activeGames s);
            currentGames := currentGames s |},
         Some game, [stats_addGame gameKey], statsLoaded)
    | _, _, _ => (s, game, [], true)
    end in
  if negb added then (s, departed ++ created ++ [uncaught_TypeError]) else
  match game with
  | Some game =>
      let merged :=
        match gameState with
        | Some newState =>
            merged ← mergeGameStates (Some game) newState;
            revealed ← merged_revealed merged;
            Some (calculateDerivedState (set_revealed revealed game))
        | None => Some game
        end in
      match merged with
      | Some game =>
          let game := set_players ({[socket]} ∪ players game) game in
          let game := set_lastActivity now game in
          ({| activeGames := <[gameKey := game]> (activeGames s);
              currentGames := <[socket := gameKey]> (currentGames s) |},
           departed ++ created ++
           [socket_join socket gameKey;
            emit_GAME_STATE gameKey game;
            emit_PLAYER_JOINED socket gameKey socket (size (players game))])
      | None => (s, departed ++ created ++ [uncaught_TypeError])
      end
  | None => (s, departed ++ created)
  end.

(** *** NEW_GAME (index.js 209-228) *)

(** The session is stored (line 216) before [gameStats.addGame] is called
    (line 217); when that call throws, lines 219-226 are not reached. *)
Definition on_NEW_GAME (statsLoaded : bool) (socket : string) (now : Z)
    (gameKey : string) (words colors : option (list string)) (s : Server)
  : Server * list event :=
  let '(s, departed) := leaveCurrentGame socket now s in
  let game := createNewGameState now gameKey words colors None in
  if statsLoaded then
    let game := set_players ({[socket]} ∪ players game) game in
    ({| activeGames := <[gameKey := game]> (activeGames s);
        currentGames := <[socket := gameKey]> (currentGames s) |},
     departed ++ [stats_addGame gameKey; socket_join socket gameKey;
              emit_GAME_STATE gameKey game])
  else
    ({| activeGames := <[gameKey := game]> (activeGames s);
        currentGames := currentGames s |},
     departed ++ [stats_addGame gameKey; uncaught_TypeError]).

(** *** REVEAL_CARD (index.js 230-273) *)

(** The turn rule of lines 256-260; [cardColor] is [colors[cardIndex]],
    [None] when that is [undefined]. *)
Definition switch_turn (cardColor : option string) (game : Game) : Game :=
  if bool_decide (cardColor ≠ Some (currentTeam game))
     || bool_decide (cardColor = Some "neutral")
  then set_currentTeam
         (if bool_decide (currentTeam game = "blue") then "red" else "blue") game
  else game.

(** The session object is updated in place (lines 250-262) before
    [gameStats.completeGame] is called (line 266); when that call throws,
    the broadcast of line 270 is not reached. *)
Definition on_REVEAL_CARD (statsLoaded : bool) (socket : string) (now : Z)
    (gameKey : string) (cardIndex : Z) (s : Server) : Server * list event :=
  if bool_decide (currentGames s !! socket ≠ Some gameKey) then (s, [])
  else
    match activeGames s !! gameKey with
    | None => (s, [])
    | Some game =>
        if JsArray.get (revealed game) cardIndex then (s, [])
        else
          let game := set_revealed (JsArray.set_true (revealed game) cardIndex) game in
          let game := set_lastActivity now game in
          let cardColor := nth_key (colors game) cardIndex in
          let game := switch_turn cardColor game in
          let game := calculateDerivedState game in
          ({| activeGames := <[gameKey := game]> (activeGames s);
              currentGames := currentGames s |},
           if gameOver game && bool_decide (is_Some (winner game))
           then if statsLoaded
                then [stats_completeGame gameKey; emit_GAME_STATE gameKey game]
                else [stats_completeGame gameKey; uncaught_TypeError]
           else [emit_GAME_STATE gameKey game])
    end.

(** *** disconnect (index.js 275-278) *)

Definition on_disconnect (socket : string) (now : Z) (s : Server)
  : Server * list event :=
  leaveCurrentGame socket now s.

(** *** The hourly sweep (index.js 281-299) *)

(** [forEach] visits the keys in the insertion order of the [Map], which the
    registry does not keep: the [removeGame] calls of one sweep are listed
    here in the order of the keys. [removeGame] ignores its argument and
    lowers a counter, so the statistics end in the same state for every
    order of these calls (proved with the statistics service below); no
    statement of this file depends on their order. *)
Definition cleanup (now : Z) (s : Server) : Server * list event :=
  let oneHourAgo := (now - 3600000)%Z in
  let stale := filter (λ kg, (lastActivity kg.2 < oneHourAgo)%Z) (activeGames s) in
  ({| activeGames := filter (λ kg, ¬ (lastActivity kg.2 < oneHourAgo)%Z) (activeGames s);
      currentGames := currentGames s |},
   (λ kg, stats_removeGame kg.1) <$> map_to_list stale).

(** *** Dispatch *)

Inductive message : Type :=
| JOIN_GAME (gameKey : string) (words colors : option (list string))
    (gameState : option GameState)
| NEW_GAME (gameKey : string) (words colors : option (list string))
| REVEAL_CARD (gameKey : string) (cardIndex : Z)
| disconnect.

Definition dispatch (statsLoaded : bool) (socket : string) (now : Z) (m : message)
    (s : Server) : Server * list event :=
  match m with
  | JOIN_GAME gameKey words colors gameState =>
      on_JOIN_GAME statsLoaded socket now gameKey words colors gameState s
  | NEW_GAME gameKey words colors =>
      on_NEW_GAME statsLoaded socket now gameKey words colors s
  | REVEAL_CARD gameKey cardIndex =>
      on_REVEAL_CARD statsLoaded socket now gameKey cardIndex s
  | disconnect => on_disconnect socket now s
  end.

(** What the server handles: a message of a socket, handled once the
    statistics are loaded ([from_socket]) or while they are not yet
    ([from_socket_early]), and the tick of the hourly sweep. Once loaded the
    statistics stay loaded, so in a run of the program the early messages
    come first; the properties below hold for every order. *)
Inductive input : Type :=
| from_socket (socket : string) (now : Z) (m : message)
| from_socket_early (socket : string) (now : Z) (m : message)
| sweep (now : Z).

Definition step (s : Server) (i : input) : Server * list event :=
  match i with
  | from_socket socket now m => dispatch true socket now m s
  | from_socket_early socket now m => dispatch false socket now m s
  | sweep now => cleanup now s
  end.

(** The server after a sequence of inputs, each handled to completion. *)
Definition run (s : Server) (inputs : list input) : Server :=
  foldl (λ s i, (step s i).1) s inputs.

(** ** Notions used in the statements *)

(** The indices of the board whose colour is [color] and whose card is not
    revealed; the remaining count of a team is the length of this list. *)
Definition unrevealed (color : string) (colors : list string) (revealed : JsArray.t)
  : list nat :=
  filter (λ i, colors !! i = Some color ∧ JsArray.at_index revealed i = false)
         (seq 0 (length colors)).

(** Some revealed entry of the board has the assassin's colour. *)
Definition assassin_revealed (colors : list string) (revealed : JsArray.t) : Prop :=
  ∃ i, colors !! i = Some "black" ∧ JsArray.at_index revealed i = true.

(** The stored derived fields of a session agree with [derive]. *)
Definition derived_ok (g : Game) : Prop :=
  (remainingCards g, gameOver g, winner g) = derive (colors g) (revealed g).

(** Two sessions that differ at most in [revealed]. *)
Definition same_but_revealed (g g' : Game) : Prop :=
  words g' = words g ∧ colors g' = colors g ∧ currentTeam g' = currentTeam g ∧
  remainingCards g' = remainingCards g ∧ gameOver g' = gameOver g ∧
  winner g' = winner g ∧ lastActivity g' = lastActivity g ∧ players g' = players g.

(** The inputs that neither replace nor remove a session: every message but
    [NEW_GAME], and no sweep. *)
Definition keeps_sessions (i : input) : Prop :=
  match i with
  | from_socket _ _ (NEW_GAME _ _ _) | from_socket_early _ _ (NEW_GAME _ _ _) => False
  | from_socket _ _ _ | from_socket_early _ _ _ => True
  | sweep _ => False
  end.

(** A client snapshot carrying the reveal flags [flags]. *)
Definition snapshot (flags : list bool) (team : option string) : GameState :=
  {| gs_revealed := Some flags; gs_currentTeam := team |}.

(** [merge S A]: [mergeGameStates] on a live session, [None] when it throws
    or does not return a session. *)
Definition merge (base : Game) (newState : GameState) : option Game :=
  match mergeGameStates (Some base) newState with
  | Some (inl g) => Some g
  | _ => None
  end.

(** Every session of the registry stores the derived fields of its own
    board and flags. *)
Definition no_drift (s : Server) : Prop :=
  map_Forall (λ _ g, derived_ok g) (activeGames s).

(** Names for three blocks of the handlers, used to state what the handlers
    compute: the detaching of lines 152-155, the merge of lines 180-185 and
    the attaching of lines 189-190. *)
Definition detach (socket : string) (now : Z) (game : Game) : Game :=
  let game := set_players (players game ∖ {[socket]}) game in
  if bool_decide (size (players game) = 0) then set_lastActivity now game else game.

Definition join_merge (gameState : option GameState) (game : Game) : option Game :=
  match gameState with
  | Some newState =>
      merged ← mergeGameStates (Some game) newState;
      revealed ← merged_revealed merged;
      Some (calculateDerivedState (set_revealed revealed game))
  | None => Some game
  end.

Definition attach (socket : string) (now : Z) (game : Game) : Game :=
  set_lastActivity now (set_players ({[socket]} ∪ players game) game).

(** Everything of a session but its presence set and activity stamp. *)
Definition same_play (g g' : Game) : Prop :=
  words g' = words g ∧ colors g' = colors g ∧ revealed g' = revealed g ∧
  currentTeam g' = currentTeam g ∧ remainingCards g' = remainingCards g ∧
  gameOver g' = gameOver g ∧ winner g' = winner g.

(** No flag that is set in [g] is cleared in [g']. *)
Definition keeps_revealed (g g' : Game) : Prop :=
  ∀ i, JsArray.at_index (revealed g) i = true → JsArray.at_index (revealed g') i = true.

(** The session update of lines 250-262, for a reveal that passes the
    guards of lines 236 and 244. *)
Definition reveal_card (now : Z) (cardIndex : Z) (game : Game) : Game :=
  calculateDerivedState
    (switch_turn (nth_key (colors game) cardIndex)
       (set_lastActivity now
          (set_revealed (JsArray.set_true (revealed game) cardIndex) game))).

(** ** A concrete game *)

(** A board of 9 blue, 8 red, 7 neutral cards and the assassin (index 3). *)
Definition board : list string :=
  ["blue"; "red"; "neutral"; "black"; "blue";
   "red"; "neutral"; "blue"; "red"; "neutral";
   "blue"; "red"; "neutral"; "blue"; "red";
   "neutral"; "blue"; "red"; "neutral"; "blue";
   "red"; "neutral"; "blue"; "red"; "blue"].

(** Socket "a" creates the session "K" at time 10. *)
Definition created : Server :=
  run initial [from_socket "a" 10 (NEW_GAME "K" (Some []) (Some board))].

(** Then reveals a blue card, a red card, and at time 40 the assassin. *)
Definition completed : Server :=
  run created [from_socket "a" 20 (REVEAL_CARD "K" 0);
               from_socket "a" 30 (REVEAL_CARD "K" 1);
               from_socket "a" 40 (REVEAL_CARD "K" 3)].

(** The session "K" in [created] and in [completed], written out. *)
Definition fresh_game : Game :=
  {| words := []; colors := board;
     revealed := JsArray.fill 25 false;
     currentTeam := "blue";
     remainingCards := {| blue := 9; red := 8 |};
     gameOver := false; winner := None;
     lastActivity := 10; players := {["a"]} |}.

Definition completed_game : Game :=
  {| words := []; colors := board;
     revealed := JsArray.of_list ([true; true; false; true] ++ replicate 21 false);
     currentTeam := "blue";
     remainingCards := {| blue := 8; red := 7 |};
     gameOver := true; winner := Some "assassin";
     lastActivity := 40; players := {["a"]} |}.

(** ** The statistics service (stats.js) *)

Module Stats.

(** One reading of the calendar: the values of [StatsPeriodManager.getToday()],
    [getWeekStart()] and [getCurrentMonth()] (month and year). They are
    computed from [new Date()]; one call of the service reads one calendar. *)
Record Calendar : Type := {
  getToday : string;
  getWeekStart : string;
  getCurrentMonth : nat * nat;
}.

(** [{ gamesCreated, gamesCompleted }], the part every period object spreads
    in. *)
Record PeriodStats : Type := { gamesCreated : nat; gamesCompleted : nat }.

Record Daily : Type := { date : string; daily_stats : PeriodStats }.
Record Weekly : Type := { startDate : string; weekly_stats : PeriodStats }.
Record Monthly : Type := { month : nat; year : nat; monthly_stats : PeriodStats }.
Record AllTime : Type := { totalGames : nat; serverStartTime : string }.

(** The object kept in [this.stats] and in the statistics file. *)
Record StatsData : Type := {
  daily : Daily;
  weekly : Weekly;
  monthly : Monthly;
  allTime : AllTime;
}.

(** stats.js 60-65 *)
Definition createEmptyPeriodStats : PeriodStats :=
  {| gamesCreated := 0; gamesCompleted := 0 |}.

(** stats.js 67-90; [nowISO] is [now.toISOString()]. *)
Definition createInitialStats (cal : Calendar) (nowISO : string) : StatsData :=
  {| daily := {| date := getToday cal; daily_stats := createEmptyPeriodStats |};
     weekly := {| startDate := getWeekStart cal; weekly_stats := createEmptyPeriodStats |};
     monthly := {| month := (getCurrentMonth cal).1; year := (getCurrentMonth cal).2;
                   monthly_stats := createEmptyPeriodStats |};
     allTime := {| totalGames := 0; serverStartTime := nowISO |} |}.

Record ResetFlags : Type := {
  reset_daily : bool;
  reset_weekly : bool;
  reset_monthly : bool;
}.

(** stats.js 92-103 *)
Definition shouldResetPeriod (cal : Calendar) (currentStats : StatsData) : ResetFlags :=
  {| reset_daily := bool_decide (date (daily currentStats) ≠ getToday cal);
     reset_weekly := bool_decide (startDate (weekly currentStats) ≠ getWeekStart cal);
     reset_monthly :=
       bool_decide (month (monthly currentStats) ≠ (getCurrentMonth cal).1)
       || bool_decide (year (monthly currentStats) ≠ (getCurrentMonth cal).2) |}.

(** stats.js 105-132 *)
Definition resetPeriods (cal : Calendar) (stats : StatsData) (resetFlags : ResetFlags)
  : StatsData :=
  let newStats := stats in
  let newStats :=
    if reset_daily resetFlags
    then {| daily := {| date := getToday cal; daily_stats := createEmptyPeriodStats |};
            weekly := weekly newStats; monthly := monthly newStats;
            allTime := allTime newStats |}
    else newStats in
  let newStats :=
    if reset_weekly resetFlags
    then {| daily := daily newStats;
            weekly := {| startDate := getWeekStart cal;
                         weekly_stats := createEmptyPeriodStats |};
            monthly := monthly newStats; allTime := allTime newStats |}
    else newStats in
  let newStats :=
    if reset_monthly resetFlags
    then {| daily := daily newStats; weekly := weekly newStats;
            monthly := {| month := (getCurrentMonth cal).1;
                          year := (getCurrentMonth cal).2;
                          monthly_stats := createEmptyPeriodStats |};
            allTime := allTime newStats |}
    else newStats in
  newStats.

(** The fields of [GameStatsService] that its synchronous methods use;
    [stats] is [null] ([None]) until [loadStats] has finished. *)
Record Service : Type := {
  stats : option StatsData;
  activeGamesCount : Z;
  isDirty : bool;
}.

Definition set_stats (st : StatsData) (svc : Service) : Service :=
  {| stats := Some st; activeGamesCount := activeGamesCount svc; isDirty := isDirty svc |}.

(** stats.js 177-179 *)
Definition markDirty (svc : Service) : Service :=
  {| stats := stats svc; activeGamesCount := activeGamesCount svc; isDirty := true |}.

(** stats.js 167-175. [shouldResetPeriod] reads [currentStats.daily]: on
    [null] that is a TypeError ([None]). *)
Definition checkAndResetPeriods (cal : Calendar) (svc : Service) : option Service :=
  match stats svc with
  | None => None
  | Some st =>
      let resetFlags := shouldResetPeriod cal st in
      let needsReset :=
        reset_daily resetFlags || reset_weekly resetFlags || reset_monthly resetFlags in
      if needsReset then Some (markDirty (set_stats (resetPeriods cal st resetFlags) svc))
      else Some svc
  end.

(** [x.gamesCreated++] and [x.gamesCompleted++] *)
Definition created_incr (p : PeriodStats) : PeriodStats :=
  {| gamesCreated := gamesCreated p + 1; gamesCompleted := gamesCompleted p |}.

Definition completed_incr (p : PeriodStats) : PeriodStats :=
  {| gamesCreated := gamesCreated p; gamesCompleted := gamesCompleted p + 1 |}.

(** A method either returns or throws; the service is the one it leaves. *)
Inductive completion : Type := returned | threw.

(** stats.js 207-215. The count is raised before the check, which may
    throw; the increments of line 210-213 read [this.stats] again. *)
Definition addGame (cal : Calendar) (gameKey : string) (svc : Service)
  : Service * completion :=
  let svc := {| stats := stats svc; activeGamesCount := (activeGamesCount svc + 1)%Z;
                isDirty := isDirty svc |} in
  match checkAndResetPeriods cal svc with
  | None => (svc, threw)
  | Some svc =>
      match stats svc with
      | None => (svc, threw)
      | Some st =>
          let st :=
            {| daily := {| date := date (daily st);
                           daily_stats := created_incr (daily_stats (daily st)) |};
               weekly := {| startDate := startDate (weekly st);
                            weekly_stats := created_incr (weekly_stats (weekly st)) |};
               monthly := {| month := month (monthly st); year := year (monthly st);
                             monthly_stats := created_incr (monthly_stats (monthly st)) |};
               allTime := {| totalGames := totalGames (allTime st) + 1;
                             serverStartTime := serverStartTime (allTime st) |} |} in
          (markDirty (set_stats st svc), returned)
      end
  end.

(** stats.js 217-219 *)
Definition removeGame (gameKey : string) (svc : Service) : Service :=
  {| stats := stats svc; activeGamesCount := (activeGamesCount svc - 1)%Z;
     isDirty := isDirty svc |}.

(** stats.js 221-227 *)
Definition completeGame (cal : Calendar) (gameKey : string) (svc : Service)
  : Service * completion :=
  match checkAndResetPeriods cal svc with
  | None => (svc, threw)
  | Some svc =>
      match stats svc with
      | None => (svc, threw)
      | Some st =>
          let st :=
            {| daily := {| date := date (daily st);
                           daily_stats := completed_incr (daily_stats (daily st)) |};
               weekly := {| startDate := startDate (weekly st);
                            weekly_stats := completed_incr (weekly_stats (weekly st)) |};
               monthly := {| month := month (monthly st); year := year (monthly st);
                             monthly_stats := completed_incr (monthly_stats (monthly st)) |};
               allTime := allTime st |} in
          (markDirty (set_stats st svc), returned)
      end
  end.

(** The object [getStats] returns: [{ activeGames, uptime, ...this.stats }]. *)
Record Report : Type := {
  activeGames : Z;
  uptime : Z;
  report_stats : StatsData;
}.

(** stats.js 229-237; [up] is [Math.floor(process.uptime())]. Without
    loaded statistics the check throws and there is no report ([None]). *)
Definition getStats (cal : Calendar) (up : Z) (svc : Service)
  : Service * option Report :=
  match checkAndResetPeriods cal svc with
  | None => (svc, None)
  | Some svc =>
      match stats svc with
      | None => (svc, None)
      | Some st =>
          (svc, Some {| activeGames := activeGamesCount svc; uptime := up;
                        report_stats := st |})
      end
  end.

(** The three calls the socket handlers and the sweep make. *)
Inductive call : Type :=
| call_addGame (gameKey : string)
| call_removeGame (gameKey : string)
| call_completeGame (gameKey : string).

Definition handle (cal : Calendar) (c : call) (svc : Service) : Service * completion :=
  match c with
  | call_addGame gameKey => addGame cal gameKey svc
  | call_removeGame gameKey => (removeGame gameKey svc, returned)
  | call_completeGame gameKey => completeGame cal gameKey svc
  end.

(** The service after a sequence of calls, each with the calendar it reads. *)
Definition feed (calls : list (Calendar * call)) (svc : Service) : Service :=
  foldl (λ svc cc, (handle cc.1 cc.2 svc).1) svc calls.

(** The number of calls of [addGame], and of [removeGame], in a sequence. *)
Definition is_addGame (c : call) : bool :=
  match c with call_addGame _ => true | _ => false end.

Definition is_removeGame (c : call) : bool :=
  match c with call_removeGame _ => true | _ => false end.

Definition added (calls : list (Calendar * call)) : nat :=
  length (filter (λ cc, is_addGame cc.2 = true) calls).

Definition removed (calls : list (Calendar * call)) : nat :=
  length (filter (λ cc, is_removeGame cc.2 = true) calls).

End Stats.

(** The calls of the statistics service among the events of the server. *)
Definition stats_calls (events : list event) : list Stats.call :=
  omap (λ e, match e with
             | stats_addGame k => Some (Stats.call_addGame k)
             | stats_removeGame k => Some (Stats.call_removeGame k)
             | stats_completeGame k => Some (Stats.call_completeGame k)
             | _ => None
             end) events.

(** ** The key generator (keyGenerator.js) *)

Module KeyGenerator.

(** A JavaScript string is kept as its UTF-16 code units; every letter used
    here is one unit. The consonants are the Cyrillic letters Be, Ve, Ghe,
    De, Ze, Ka, El, Em, En, Pe, Er, Es, Te, Ha, the vowels are A, I, O, U,
    Ie, Ya. *)
Definition CONSONANTS : list N :=
  [1041; 1042; 1043; 1044; 1047; 1050; 1051; 1052; 1053; 1055; 1056; 1057; 1058; 1061]%N.

Definition VOWELS : list N := [1040; 1048; 1054; 1059; 1045; 1071]%N.

(** The letter En, which marks a key of the AI dictionary. *)
Definition EN : N := 1053%N.

(** The alphabet used at position [i]: [i % 2 === 1 ? VOWELS : CONSONANTS]. *)
Definition letters_at (i : nat) : list N :=
  if bool_decide (i mod 2 = 1) then VOWELS else CONSONANTS.

(** The loop [for (let i = 0; i < 6; i++)] with [n] iterations left.
    [draw i] is the value of [Math.floor(Math.random() * letters.length)] in
    iteration [i]; an index outside the alphabet reads [undefined] ([None]). *)
Fixpoint generate_loop (draw : nat → nat) (n i : nat) (key : list (option N))
  : list (option N) :=
  match n with
  | 0 => key
  | S n => generate_loop draw n (S i) (key ++ [letters_at i !! draw i])
  end.

(** [key.join('')]: an [undefined] element contributes nothing. *)
Definition join (key : list (option N)) : list N := omap id key.

Definition generateAIKey (draw : nat → nat) : list N :=
  join (generate_loop draw 6 0 [] ++ [Some EN]).

(** The truthiness of [key && key.length === 7 && key[6] === EN] on a
    string. *)
Definition isAIKey (key : list N) : bool :=
  negb (bool_decide (key = [])) && bool_decide (length key = 7)
  && bool_decide (key !! 6 = Some EN).

End KeyGenerator.

(** ** The search for an unused key (index.js 65-74) *)

(** How the [do ... while] loop ends: with a key, or by throwing after the
    tenth attempt; [out_of_fuel] marks a run cut short by the fuel. *)
Inductive key_search (K : Type) : Type :=
| found (key : K)
| gave_up
| out_of_fuel.

Arguments found {K} key.
Arguments gave_up {K}.
Arguments out_of_fuel {K}.

(** [gen n] is the key the [n]-th call of [generateAIKey()] returns (counting
    from 0) and [gameExists] the answer of the games file, taken as readable
    and unchanged during the loop. [attempts] is the counter of the source. *)
Fixpoint unique_key_loop {K : Type} (gen : nat → K) (gameExists : K → bool)
    (fuel attempts : nat) : key_search K :=
  match fuel with
  | 0 => out_of_fuel
  | S fuel =>
      let key := gen attempts in
      let attempts := S attempts in
      if decide (10 < attempts) then gave_up
      else if gameExists key then unique_key_loop gen gameExists fuel attempts
      else found key
  end.

(** ** Notions used in the further properties *)

(** The events of a run, in the order they happen. *)
Fixpoint run_events (s : Server) (inputs : list input) : list event :=
  match inputs with
  | [] => []
  | i :: inputs => (step s i).2 ++ run_events (step s i).1 inputs
  end.

(** Calls of [addGame] minus calls of [removeGame] among the events. *)
Fixpoint stats_balance (events : list event) : Z :=
  match events with
  | [] => 0
  | stats_addGame _ :: events => (stats_balance events + 1)%Z
  | stats_removeGame _ :: events => (stats_balance events - 1)%Z
  | _ :: events => stats_balance events
  end.

(** A socket listed as a player of a session with a non-empty key has that
    key as its [currentGame]. *)
Definition presence_ok (s : Server) : Prop :=
  ∀ k g socket, activeGames s !! k = Some g → socket ∈ players g → k ≠ "" →
    currentGames s !! socket = Some k.

(** The socket is a player of no session with a non-empty key. *)
Definition absent_from_sessions (socket : string) (s : Server) : Prop :=
  ∀ k g, activeGames s !! k = Some g → k ≠ "" → socket ∉ players g.

(** The key a message names, if any. *)
Definition message_key (m : message) : option string :=
  match m with
  | JOIN_GAME gameKey _ _ _ | NEW_GAME gameKey _ _ | REVEAL_CARD gameKey _ => Some gameKey
  | disconnect => None
  end.

(** How many inputs of a run are a NEW_GAME for a key that has a session
    when the message arrives. *)
Fixpoint replacements (s : Server) (inputs : list input) : Z :=
  match inputs with
  | [] => 0
  | i :: inputs =>
      (match i with
       | from_socket _ _ (NEW_GAME gameKey _ _)
       | from_socket_early _ _ (NEW_GAME gameKey _ _) =>
           if decide (is_Some (activeGames s !! gameKey)) then 1 else 0
       | _ => 0
       end + replacements (step s i).1 inputs)%Z
  end.

(** ** Concrete inputs for the further properties *)

(** Socket "a" joins the empty key with a board at time 10. *)
Definition joined_empty_key : Server :=
  run initial [from_socket "a" 10 (JOIN_GAME "" (Some []) (Some board) None)].

(** A snapshot without [revealed]. *)
Definition snapshot_without_flags : GameState :=
  {| gs_revealed := None; gs_currentTeam := None |}.

(** A Monday and the Tuesday after it. *)
Definition monday : Stats.Calendar :=
  {| Stats.getToday := "2024-05-06"; Stats.getWeekStart := "2024-05-06";
     Stats.getCurrentMonth := (5, 2024) |}.

Definition tuesday : Stats.Calendar :=
  {| Stats.getToday := "2024-05-07"; Stats.getWeekStart := "2024-05-06";
     Stats.getCurrentMonth := (5, 2024) |}.

(** Statistics created on that Monday, and a service that holds them. *)
Definition monday_stats : Stats.StatsData :=
  Stats.createInitialStats monday "2024-05-06T08:00:00.000Z".

Definition loaded_service : Stats.Service :=
  {| Stats.stats := Some monday_stats; Stats.activeGamesCount := 0;
     Stats.isDirty := false |}.

Definition unloaded_service : Stats.Service :=
  {| Stats.stats := None; Stats.activeGamesCount := 0; Stats.isDirty := false |}.

(** The random source that always draws the first letter. *)
Definition first_letter (i : nat) : nat := 0.

(** * Properties *)

(** ** Arrays *)

Section array_facts.
Import JsArray.

Lemma length_store (i : nat) (l : list slot) :
  length (store i l) = length l `max` S i.
Proof.
  unfold store. case_decide.
  - rewrite length_insert. lia.
  - rewrite !length_app, length_replicate. simpl. lia.
Qed.

Lemma lookup_store_eq (i : nat) (l : list slot) :
  store i l !! i = Some (Elem true).
Proof.
  unfold store. case_decide.
  - by apply list_lookup_insert_eq.
  - rewrite lookup_app_r by lia.
    rewrite lookup_app_r by (rewrite length_replicate; lia).
    rewrite length_replicate.
    by replace (i - length l - (i - length l)) with 0 by lia.
Qed.

Lemma lookup_store_lt (i j : nat) (l : list slot) :
  j ≠ i → j < length l → store i l !! j = l !! j.
Proof.
  intros Hne Hlt. unfold store. case_decide.
  - by apply list_lookup_insert_ne.
  - by apply lookup_app_l.
Qed.

(** A write never turns a truthy slot falsy. *)
Lemma store_keeps (i j : nat) (l : list slot) :
  l !! j = Some (Elem true) → store i l !! j = Some (Elem true).
Proof.
  intros Hj. destruct (decide (j = i)) as [->|Hne].
  - apply lookup_store_eq.
  - rewrite lookup_store_lt; [done..|]. by eapply lookup_lt_Some.
Qed.

Lemma at_index_true (a : t) (i : nat) :
  at_index a i = true ↔ elems a !! i = Some (Elem true).
Proof.
  unfold at_index. destruct (elems a !! i) as [[|[]]|]; naive_solver.
Qed.

Lemma at_index_set_true_keeps (a : t) (k : Z) (i : nat) :
  at_index a i = true → at_index (set_true a k) i = true.
Proof.
  rewrite !at_index_true. unfold set_true.
  destruct (is_index k); simpl; [apply store_keeps | done].
Qed.

(** Slots below the written index, and all slots when the key is not an
    index, read as before. *)
Lemma at_index_set_true_other (a : t) (k : Z) (i : nat) :
  (is_index k = true → i ≠ Z.to_nat k) →
  at_index (set_true a k) i = at_index a i.
Proof.
  intros Hne. unfold set_true, at_index.
  destruct (is_index k); simpl; [|done].
  specialize (Hne eq_refl).
  unfold store. case_decide.
  - by rewrite list_lookup_insert_ne.
  - destruct (decide (i < length (elems a))).
    + by rewrite lookup_app_l.
    + rewrite (lookup_ge_None_2 (elems a)) by lia.
      rewrite lookup_app_r by lia.
      destruct (decide (i - length (elems a) < Z.to_nat k - length (elems a))).
      * rewrite lookup_app_l by (rewrite length_replicate; lia).
        by rewrite lookup_replicate_2.
      * rewrite lookup_app_r by (rewrite length_replicate; lia).
        rewrite length_replicate.
        rewrite lookup_ge_None_2; [done|]. simpl. lia.
Qed.

Lemma get_set_true (a : t) (k : Z) : get (set_true a k) k = true.
Proof.
  unfold get, set_true. destruct (is_index k) eqn:Hk; simpl.
  - unfold at_index. simpl. by rewrite lookup_store_eq.
  - apply bool_decide_eq_true. set_solver.
Qed.

(** What [map_from] returns, slot by slot. *)
Lemma map_from_lookup (f : bool → nat → option bool) (l l' : list slot) (i : nat) :
  map_from f i l = Some l' →
  length l' = length l ∧
  ∀ j, l' !! j = match l !! j with
                 | Some Hole => Some Hole
                 | Some (Elem b) => Elem <$> f b (i + j)
                 | None => None
                 end.
Proof.
  revert l' i. induction l as [|s l IH]; intros l' i Hmap; simpl in Hmap.
  - simplify_eq. split; [done|]. by intros [|j].
  - destruct s as [|b]; simplify_option_eq.
    + destruct (IH _ _ Heqo) as [Hlen Hlook]. split; [simpl; by f_equal|].
      intros [|j]; [done|]. simpl. rewrite Hlook.
      by replace (S i + j) with (i + S j) by lia.
    + destruct (IH _ _ Heqo0) as [Hlen Hlook]. split; [simpl; by f_equal|].
      intros [|j]; simpl.
      * by rewrite Nat.add_0_r, Heqo.
      * rewrite Hlook. by replace (S i + j) with (i + S j) by lia.
Qed.

End array_facts.

(** ** Derived state *)

Lemma reduce_from_snoc {A B : Type} (f : B → A → nat → B) (l : list A) (x : A) :
  ∀ i acc, reduce_from f i (l ++ [x]) acc = f (reduce_from f i l acc) x (i + length l).
Proof.
  induction l as [|y l IH]; intros i acc; simpl.
  - by rewrite Nat.add_0_r.
  - rewrite IH. f_equal. lia.
Qed.

Lemma some_from_true {A : Type} (p : A → nat → bool) (l : list A) :
  ∀ i, some_from p i l = true ↔ ∃ j x, l !! j = Some x ∧ p x (i + j) = true.
Proof.
  induction l as [|y l IH]; intros i; simpl.
  - split; [done|]. by intros (j & x & ? & _).
  - rewrite orb_true_iff, IH. split.
    + intros [Hy|(j & x & Hj & Hp)].
      * exists 0, y. by rewrite Nat.add_0_r.
      * exists (S j), x. split; [done|]. by replace (i + S j) with (S i + j) by lia.
    + intros ([|j] & x & Hj & Hp); simpl in Hj.
      * left. simplify_eq. by rewrite Nat.add_0_r in Hp.
      * right. exists j, x. split; [done|]. by replace (S i + j) with (i + S j) by lia.
Qed.

Lemma filter_ext_in {A : Type} (P Q : A → Prop)
    `{!∀ x, Decision (P x), !∀ x, Decision (Q x)} (l : list A) :
  (∀ x, x ∈ l → P x ↔ Q x) → filter P l = filter Q l.
Proof.
  induction l as [|a l IH]; intros Hiff; [done|].
  rewrite !filter_cons, IH by (intros; apply Hiff; by right).
  apply decide_ext, Hiff. by left.
Qed.

(** The [reduce] of lines 102-103 counts the unrevealed cards of a colour. *)
Lemma reduce_unrevealed (color : string) (colors : list string) (revealed : JsArray.t) :
  reduce (λ sum c i,
      sum + (if bool_decide (c = color) && negb (JsArray.at_index revealed i)
             then 1 else 0)) colors 0
  = length (unrevealed color colors revealed).
Proof.
  unfold reduce, unrevealed.
  induction colors as [|c colors IH] using rev_ind; [done|].
  rewrite reduce_from_snoc, IH, length_app. simpl.
  rewrite Nat.add_1_r, seq_S, filter_app, length_app. simpl. f_equal.
  - f_equal. apply filter_ext_in. intros i Hi%elem_of_seq.
    by rewrite lookup_app_l by lia.
  - rewrite filter_cons, filter_nil.
    rewrite lookup_app_r, Nat.sub_diag by lia. simpl.
    destruct (decide (c = color)) as [->|Hne].
    + rewrite bool_decide_eq_true_2 by done. simpl.
      destruct (JsArray.at_index revealed (length colors)); simpl.
      * rewrite decide_False; [done|]. by intros [_ ?].
      * by rewrite decide_True.
    + rewrite bool_decide_eq_false_2 by done. simpl.
      rewrite decide_False; [done|]. intros [? _]. congruence.
Qed.

Lemma some_black_revealed (colors : list string) (revealed : JsArray.t) :
  some (λ c i, bool_decide (c = "black") && JsArray.at_index revealed i) colors = true
  ↔ assassin_revealed colors revealed.
Proof.
  unfold some, assassin_revealed. rewrite some_from_true. split.
  - intros (j & x & Hj & [Hx Hr]%andb_true_iff).
    apply bool_decide_eq_true in Hx. subst. by exists j.
  - intros (i & Hi & Hr). exists i, "black". split; [done|].
    rewrite Nat.add_0_l, Hr. done.
Qed.

(** C1. For every board and every reveal vector, [derive] returns as the
    remaining count of blue (resp. red) the number of indices whose colour is
    blue (resp. red) and whose card is not revealed; the winner follows the
    fixed precedence: the assassin if an entry of the assassin's colour is
    revealed, else blue if no blue card remains, else red if no red card
    remains, else none; and [gameOver] holds exactly when there is a winner.
    In particular a revealed assassin wins even when no red card remains. *)
Theorem derive_counts_and_precedence (colors : list string) (revealed : JsArray.t) :
  let '(remaining, over, win) := derive colors revealed in
  blue remaining = length (unrevealed "blue" colors revealed) ∧
  red remaining = length (unrevealed "red" colors revealed) ∧
  (assassin_revealed colors revealed → win = Some "assassin") ∧
  (¬ assassin_revealed colors revealed → blue remaining = 0 → win = Some "blue") ∧
  (¬ assassin_revealed colors revealed → blue remaining ≠ 0 → red remaining = 0 →
     win = Some "red") ∧
  (¬ assassin_revealed colors revealed → blue remaining ≠ 0 → red remaining ≠ 0 →
     win = None) ∧
  (over = true ↔ win ≠ None) ∧
  (assassin_revealed colors revealed → red remaining = 0 →
     over = true ∧ win = Some "assassin").
Proof.
  unfold derive. cbv zeta. simpl blue. simpl red.
  rewrite !reduce_unrevealed.
  pose proof (some_black_revealed colors revealed) as Hblack.
  destruct (some _ colors) eqn:Hsome.
  - assert (assassin_revealed colors revealed) by by apply Hblack.
    repeat split; try done; intros; by simplify_eq.
  - assert (¬ assassin_revealed colors revealed) as Hno.
    { intros Ha%Hblack. done. }
    repeat split; try done; simpl.
    + intros _ ->. done.
    + intros _ Hb Hr. by rewrite bool_decide_eq_false_2, bool_decide_eq_true_2.
    + intros _ Hb Hr. by rewrite !bool_decide_eq_false_2.
    + clear Hblack. repeat case_bool_decide; simpl; by intros ?.
    + clear Hblack. by repeat case_bool_decide.
Qed.

(** ** Sessions: what each update keeps *)

Lemma calculateDerivedState_frame (g : Game) :
  words (calculateDerivedState g) = words g ∧
  colors (calculateDerivedState g) = colors g ∧
  revealed (calculateDerivedState g) = revealed g ∧
  currentTeam (calculateDerivedState g) = currentTeam g ∧
  lastActivity (calculateDerivedState g) = lastActivity g ∧
  players (calculateDerivedState g) = players g.
Proof.
  unfold calculateDerivedState. by destruct (derive _ _) as [[? ?] ?].
Qed.

Lemma calculateDerivedState_ok (g : Game) : derived_ok (calculateDerivedState g).
Proof.
  unfold derived_ok, calculateDerivedState.
  by destruct (derive (colors g) (revealed g)) as [[? ?] ?] eqn:Hd.
Qed.

Lemma derived_ok_set_players (p : gset string) (g : Game) :
  derived_ok g → derived_ok (set_players p g).
Proof. done. Qed.

Lemma derived_ok_set_lastActivity (now : Z) (g : Game) :
  derived_ok g → derived_ok (set_lastActivity now g).
Proof. done. Qed.

Lemma createNewGameState_ok now gameKey words colors savedState :
  derived_ok (createNewGameState now gameKey words colors savedState).
Proof. apply calculateDerivedState_ok. Qed.

(** ** The handlers, block by block *)

Lemma leaveCurrentGame_attached socket now s key :
  currentGames s !! socket = Some key → key ≠ "" →
  leaveCurrentGame socket now s =
    ({| activeGames :=
          match activeGames s !! key with
          | Some game => <[key := detach socket now game]> (activeGames s)
          | None => activeGames s
          end;
        currentGames := delete socket (currentGames s) |},
     [socket_leave socket key]).
Proof.
  intros Hc Hne. unfold leaveCurrentGame. rewrite Hc.
  by rewrite bool_decide_eq_false_2.
Qed.

(** After [leaveCurrentGame] every session is the one it was, or that one
    with the socket detached. *)
Lemma leaveCurrentGame_lookup socket now s k :
  activeGames (leaveCurrentGame socket now s).1 !! k = activeGames s !! k ∨
  activeGames (leaveCurrentGame socket now s).1 !! k
    = detach socket now <$> activeGames s !! k.
Proof.
  unfold leaveCurrentGame.
  destruct (currentGames s !! socket) as [key|]; [|by left].
  case_bool_decide; [by left|]. simpl.
  destruct (activeGames s !! key) as [g|] eqn:Hkey; [|by left].
  destruct (decide (key = k)) as [->|Hne].
  - right. by rewrite lookup_insert_eq, Hkey.
  - left. by rewrite lookup_insert_ne.
Qed.

Lemma detach_same_play socket now g : same_play g (detach socket now g).
Proof. unfold detach. by case_bool_decide. Qed.

Lemma attach_same_play socket now g : same_play g (attach socket now g).
Proof. done. Qed.

Lemma same_play_derived_ok g g' : same_play g g' → derived_ok g → derived_ok g'.
Proof.
  unfold same_play, derived_ok. intros (_ & -> & -> & _ & -> & -> & ->). done.
Qed.

Lemma on_JOIN_GAME_existing {loaded : bool} socket now gameKey words colors gameState s g :
  activeGames (leaveCurrentGame socket now s).1 !! gameKey = Some g →
  on_JOIN_GAME loaded socket now gameKey words colors gameState s =
    let s1 := (leaveCurrentGame socket now s).1 in
    let departed := (leaveCurrentGame socket now s).2 in
    match join_merge gameState g with
    | Some merged =>
        ({| activeGames := <[gameKey := attach socket now merged]> (activeGames s1);
            currentGames := <[socket := gameKey]> (currentGames s1) |},
         departed ++ [] ++
         [socket_join socket gameKey;
          emit_GAME_STATE gameKey (attach socket now merged);
          emit_PLAYER_JOINED socket gameKey socket
            (size (players (attach socket now merged)))])
    | None => (s1, departed ++ [] ++ [uncaught_TypeError])
    end.
Proof.
  unfold on_JOIN_GAME. destruct (leaveCurrentGame socket now s) as [s1 departed].
  simpl. intros ->. unfold join_merge.
  by destruct words, colors.
Qed.

Lemma on_JOIN_GAME_create socket now gameKey w c gameState s :
  activeGames (leaveCurrentGame socket now s).1 !! gameKey = None →
  on_JOIN_GAME true socket now gameKey (Some w) (Some c) gameState s =
    let s1 := (leaveCurrentGame socket now s).1 in
    let departed := (leaveCurrentGame socket now s).2 in
    let g := createNewGameState now gameKey (Some w) (Some c) gameState in
    match join_merge gameState g with
    | Some merged =>
        ({| activeGames :=
              <[gameKey := attach socket now merged]> (<[gameKey := g]> (activeGames s1));
            currentGames := <[socket := gameKey]> (currentGames s1) |},
         departed ++ [stats_addGame gameKey] ++
         [socket_join socket gameKey;
          emit_GAME_STATE gameKey (attach socket now merged);
          emit_PLAYER_JOINED socket gameKey socket
            (size (players (attach socket now merged)))])
    | None =>
        ({| activeGames := <[gameKey := g]> (activeGames s1);
            currentGames := currentGames s1 |},
         departed ++ [stats_addGame gameKey] ++ [uncaught_TypeError])
    end.
Proof.
  unfold on_JOIN_GAME. destruct (leaveCurrentGame socket now s) as [s1 departed].
  simpl. intros ->. done.
Qed.

Lemma on_JOIN_GAME_create_early socket now gameKey w c gameState s :
  activeGames (leaveCurrentGame socket now s).1 !! gameKey = None →
  on_JOIN_GAME false socket now gameKey (Some w) (Some c) gameState s =
    let s1 := (leaveCurrentGame socket now s).1 in
    let departed := (leaveCurrentGame socket now s).2 in
    let g := createNewGameState now gameKey (Some w) (Some c) gameState in
    ({| activeGames := <[gameKey := g]> (activeGames s1);
        currentGames := currentGames s1 |},
     departed ++ [stats_addGame gameKey] ++ [uncaught_TypeError]).
Proof.
  unfold on_JOIN_GAME. destruct (leaveCurrentGame socket now s) as [s1 departed].
  simpl. intros ->. done.
Qed.

Lemma on_JOIN_GAME_absent {loaded : bool} socket now gameKey words colors gameState s :
  activeGames (leaveCurrentGame socket now s).1 !! gameKey = None →
  words = None ∨ colors = None →
  on_JOIN_GAME loaded socket now gameKey words colors gameState s =
    ((leaveCurrentGame socket now s).1, (leaveCurrentGame socket now s).2 ++ []).
Proof.
  unfold on_JOIN_GAME. destruct (leaveCurrentGame socket now s) as [s1 departed].
  simpl. intros -> [-> | ->]; [done|]. by destruct words.
Qed.

(** [mergeGameStates] on a session returns a session. *)
Lemma mergeGameStates_session base newState merged :
  mergeGameStates (Some base) newState = Some merged →
  ∃ r, JsArray.map (or_incoming newState) (revealed base) = Some r ∧
       merged = inl (set_revealed r base).
Proof.
  unfold mergeGameStates. intros Hm.
  destruct (JsArray.map _ _) as [r|]; simplify_eq/=. by exists r.
Qed.

Lemma join_merge_Some gameState g merged :
  join_merge gameState g = Some merged →
  merged = g ∨
  ∃ newState r, gameState = Some newState ∧
    JsArray.map (or_incoming newState) (revealed g) = Some r ∧
    merged = calculateDerivedState (set_revealed r g).
Proof.
  unfold join_merge. destruct gameState as [newState|]; [|left; by simplify_eq].
  intros Hm. right. exists newState.
  destruct (mergeGameStates (Some g) newState) as [m|] eqn:Hmerge; [|done].
  apply mergeGameStates_session in Hmerge as (r & Hr & ->).
  simpl in Hm. simplify_eq. by exists r.
Qed.

(** ** The derived fields never drift *)

Lemma join_merge_derived_ok gameState g merged :
  derived_ok g → join_merge gameState g = Some merged → derived_ok merged.
Proof.
  intros Hg [->|(newState & r & _ & _ & ->)]%join_merge_Some; [done|].
  apply calculateDerivedState_ok.
Qed.

Lemma leaveCurrentGame_no_drift socket now s :
  no_drift s → no_drift (leaveCurrentGame socket now s).1.
Proof.
  intros Hs k g' Hk.
  destruct (leaveCurrentGame_lookup socket now s k) as [Heq|Heq];
    rewrite Heq in Hk.
  - by apply (Hs k).
  - destruct (activeGames s !! k) as [g|] eqn:Hg; simplify_eq/=.
    eapply same_play_derived_ok; [apply detach_same_play|]. by apply (Hs k).
Qed.

Lemma on_JOIN_GAME_no_drift loaded socket now gameKey words colors gameState s :
  no_drift s →
  no_drift (on_JOIN_GAME loaded socket now gameKey words colors gameState s).1.
Proof.
  intros Hs%(leaveCurrentGame_no_drift socket now). unfold no_drift in *.
  destruct (activeGames (leaveCurrentGame socket now s).1 !! gameKey) as [g|] eqn:Hk.
  - rewrite (on_JOIN_GAME_existing _ _ _ _ _ _ _ g Hk). cbv zeta.
    destruct (join_merge gameState g) as [merged|] eqn:Hm; simpl; [|done].
    apply map_Forall_insert_2; [|done].
    eapply same_play_derived_ok; [apply attach_same_play|].
    eapply join_merge_derived_ok; [|done]. by apply (Hs gameKey).
  - destruct words as [w|]; [destruct colors as [c|]|].
    + destruct loaded.
      * rewrite (on_JOIN_GAME_create _ _ _ _ _ _ _ Hk). cbv zeta.
        set (g := createNewGameState _ _ _ _ _).
        assert (derived_ok g) as Hg by apply createNewGameState_ok.
        destruct (join_merge gameState g) as [merged|] eqn:Hm; simpl.
        -- apply map_Forall_insert_2; [|by apply map_Forall_insert_2].
           eapply same_play_derived_ok; [apply attach_same_play|].
           by eapply join_merge_derived_ok.
        -- by apply map_Forall_insert_2.
      * rewrite (on_JOIN_GAME_create_early _ _ _ _ _ _ _ Hk). cbv zeta. simpl.
        apply map_Forall_insert_2; [|done]. apply createNewGameState_ok.
    + rewrite on_JOIN_GAME_absent; auto.
    + rewrite on_JOIN_GAME_absent; auto.
Qed.

Lemma on_NEW_GAME_no_drift loaded socket now gameKey words colors s :
  no_drift s → no_drift (on_NEW_GAME loaded socket now gameKey words colors s).1.
Proof.
  intros Hs%(leaveCurrentGame_no_drift socket now). unfold no_drift, on_NEW_GAME in *.
  destruct (leaveCurrentGame socket now s) as [s1 departed]. simpl in *.
  destruct loaded; simpl; (apply map_Forall_insert_2; [|done]).
  - apply derived_ok_set_players, createNewGameState_ok.
  - apply createNewGameState_ok.
Qed.

Lemma on_REVEAL_CARD_no_drift loaded socket now gameKey cardIndex s :
  no_drift s → no_drift (on_REVEAL_CARD loaded socket now gameKey cardIndex s).1.
Proof.
  intros Hs. unfold no_drift, on_REVEAL_CARD in *.
  case_bool_decide; [done|].
  destruct (activeGames s !! gameKey) as [g|]; [|done].
  destruct (JsArray.get (revealed g) cardIndex); [done|]. simpl.
  apply map_Forall_insert_2; [|done]. apply calculateDerivedState_ok.
Qed.

Lemma cleanup_no_drift now s : no_drift s → no_drift (cleanup now s).1.
Proof.
  intros Hs k g [Hk _]%map_lookup_filter_Some. by apply (Hs k).
Qed.

Lemma dispatch_no_drift loaded socket now m s :
  no_drift s → no_drift (dispatch loaded socket now m s).1.
Proof.
  destruct m as [gameKey words colors gameState
                |gameKey words colors|gameKey cardIndex|]; simpl.
  - apply on_JOIN_GAME_no_drift.
  - apply on_NEW_GAME_no_drift.
  - apply on_REVEAL_CARD_no_drift.
  - apply leaveCurrentGame_no_drift.
Qed.

Lemma step_no_drift s i : no_drift s → no_drift (step s i).1.
Proof.
  destruct i as [socket now m|socket now m|now]; simpl.
  - apply dispatch_no_drift.
  - apply dispatch_no_drift.
  - apply cleanup_no_drift.
Qed.

Lemma run_no_drift inputs : ∀ s, no_drift s → no_drift (run s inputs).
Proof.
  induction inputs as [|i inputs IH]; intros s Hs; [done|].
  apply IH. by apply step_no_drift.
Qed.

(** C4. Whatever inputs the server has handled since it started (creations,
    joins with or without a merge, reveals, disconnects, sweeps), every
    session of the registry stores as [remainingCards], [gameOver] and
    [winner] exactly what [derive] returns on its current board and flags. *)
Theorem derived_fields_never_drift (inputs : list input) (gameKey : string) (g : Game) :
  activeGames (run initial inputs) !! gameKey = Some g →
  (remainingCards g, gameOver g, winner g) = derive (colors g) (revealed g).
Proof.
  intros Hg. by apply (run_no_drift inputs initial (map_Forall_empty _) gameKey g).
Qed.

(** ** The reconnect merge *)

Lemma map_from_total (f : bool → nat → option bool) (l : list JsArray.slot) :
  (∀ b j, is_Some (f b j)) → ∀ i, is_Some (JsArray.map_from f i l).
Proof.
  intros Hf. induction l as [|[|b] l IH]; intros i; simpl.
  - done.
  - destruct (IH (S i)) as [l' ->]. done.
  - destruct (Hf b i) as [b' ->], (IH (S i)) as [l' ->]. done.
Qed.

Lemma or_incoming_snapshot flags team b j :
  or_incoming (snapshot flags team) b j = Some (b || default false (flags !! j)).
Proof. by destruct b. Qed.

(** Merging a snapshot that carries flags always succeeds; it ORs the
    incoming flag into every element and leaves holes alone. *)
Lemma merge_snapshot (base : Game) (flags : list bool) (team : option string) :
  ∃ l, merge base (snapshot flags team)
         = Some (set_revealed {| JsArray.elems := l; JsArray.props := ∅ |} base) ∧
       ∀ j, l !! j = match JsArray.elems (revealed base) !! j with
                     | Some JsArray.Hole => Some JsArray.Hole
                     | Some (JsArray.Elem b) =>
                         Some (JsArray.Elem (b || default false (flags !! j)))
                     | None => None
                     end.
Proof.
  destruct (map_from_total (or_incoming (snapshot flags team))
              (JsArray.elems (revealed base))) with (i := 0) as [l Hl].
  { intros b j. by rewrite or_incoming_snapshot. }
  exists l. split.
  - unfold merge, mergeGameStates, JsArray.map. by rewrite Hl.
  - apply map_from_lookup in Hl as [_ Hl]. intros j. rewrite Hl.
    destruct (JsArray.elems (revealed base) !! j) as [[|b]|]; try done.
    by rewrite or_incoming_snapshot.
Qed.

Lemma map_or_incoming_keeps newState (a r : JsArray.t) (i : nat) :
  JsArray.map (or_incoming newState) a = Some r →
  JsArray.at_index a i = true → JsArray.at_index r i = true.
Proof.
  unfold JsArray.map. intros Hmap.
  destruct (JsArray.map_from _ 0 (JsArray.elems a)) as [l|] eqn:Hl; simplify_eq/=.
  apply map_from_lookup in Hl as [_ Hl].
  rewrite !at_index_true. simpl. intros Hi. by rewrite Hl, Hi.
Qed.

Lemma join_merge_keeps gameState g merged :
  join_merge gameState g = Some merged → keeps_revealed g merged.
Proof.
  intros [->|(newState & r & _ & Hr & ->)]%join_merge_Some i; [done|].
  destruct (calculateDerivedState_frame (set_revealed r g)) as (_ & _ & -> & _).
  simpl. by eapply map_or_incoming_keeps.
Qed.

Lemma join_merge_frame gameState g merged :
  join_merge gameState g = Some merged →
  words merged = words g ∧ colors merged = colors g ∧
  currentTeam merged = currentTeam g ∧ lastActivity merged = lastActivity g ∧
  players merged = players g.
Proof.
  intros [->|(newState & r & _ & _ & ->)]%join_merge_Some; [done|].
  by destruct (calculateDerivedState_frame (set_revealed r g))
    as (-> & -> & _ & -> & -> & ->).
Qed.

(** ** How the handlers change the session stored under a key *)

Lemma on_JOIN_GAME_lookup_ne {loaded : bool} socket now gameKey words colors gameState s k :
  k ≠ gameKey →
  activeGames (on_JOIN_GAME loaded socket now gameKey words colors gameState s).1 !! k
  = activeGames (leaveCurrentGame socket now s).1 !! k.
Proof.
  intros Hne.
  destruct (activeGames (leaveCurrentGame socket now s).1 !! gameKey) as [g|] eqn:Hk.
  - rewrite (on_JOIN_GAME_existing _ _ _ _ _ _ _ g Hk). cbv zeta.
    destruct (join_merge gameState g); simpl; [|done].
    by rewrite lookup_insert_ne.
  - destruct words as [w|]; [destruct colors as [c|]|].
    + destruct loaded.
      * rewrite (on_JOIN_GAME_create _ _ _ _ _ _ _ Hk). cbv zeta.
        destruct (join_merge gameState _); simpl; by rewrite ?lookup_insert_ne.
      * rewrite (on_JOIN_GAME_create_early _ _ _ _ _ _ _ Hk). cbv zeta. simpl.
        by rewrite lookup_insert_ne.
    + rewrite on_JOIN_GAME_absent; auto.
    + rewrite on_JOIN_GAME_absent; auto.
Qed.

Lemma on_JOIN_GAME_lookup_existing {loaded : bool} socket now gameKey words colors gameState s g :
  activeGames (leaveCurrentGame socket now s).1 !! gameKey = Some g →
  activeGames (on_JOIN_GAME loaded socket now gameKey words colors gameState s).1 !! gameKey
  = Some (match join_merge gameState g with
          | Some merged => attach socket now merged
          | None => g
          end).
Proof.
  intros Hk. rewrite (on_JOIN_GAME_existing _ _ _ _ _ _ _ g Hk). cbv zeta.
  destruct (join_merge gameState g); simpl; [|done].
  by rewrite lookup_insert_eq.
Qed.

Lemma leaveCurrentGame_same_play socket now s k g :
  activeGames s !! k = Some g →
  ∃ g', activeGames (leaveCurrentGame socket now s).1 !! k = Some g' ∧ same_play g g'.
Proof.
  intros Hk.
  destruct (leaveCurrentGame_lookup socket now s k) as [Heq|Heq];
    rewrite Heq, Hk; simpl.
  - by exists g.
  - eexists. split; [done|]. apply detach_same_play.
Qed.

Lemma on_REVEAL_CARD_lookup_ne {loaded : bool} socket now gameKey cardIndex s k :
  k ≠ gameKey →
  activeGames (on_REVEAL_CARD loaded socket now gameKey cardIndex s).1 !! k
  = activeGames s !! k.
Proof.
  intros Hne. unfold on_REVEAL_CARD.
  case_bool_decide; [done|].
  destruct (activeGames s !! gameKey) as [g|]; [|done].
  destruct (JsArray.get (revealed g) cardIndex); [done|]. simpl.
  by rewrite lookup_insert_ne.
Qed.

Lemma switch_turn_frame cardColor g :
  words (switch_turn cardColor g) = words g ∧
  colors (switch_turn cardColor g) = colors g ∧
  revealed (switch_turn cardColor g) = revealed g ∧
  lastActivity (switch_turn cardColor g) = lastActivity g ∧
  players (switch_turn cardColor g) = players g.
Proof. unfold switch_turn. by destruct (_ || _). Qed.

(** ** The reveal flags only grow *)

Lemma dispatch_keeps_revealed loaded socket now m s k g :
  keeps_sessions (from_socket socket now m) → activeGames s !! k = Some g →
  ∃ g', activeGames (dispatch loaded socket now m s).1 !! k = Some g' ∧
        keeps_revealed g g'.
Proof.
  intros Hi Hk.
  destruct m as [gameKey words colors gameState
                |gameKey words colors|gameKey cardIndex|];
    simpl in *; try done.
  - destruct (leaveCurrentGame_same_play socket now s k g Hk)
      as (g1 & Hk1 & (_ & _ & Hrev & _)).
    destruct (decide (k = gameKey)) as [->|Hne].
    + rewrite (on_JOIN_GAME_lookup_existing _ _ _ _ _ _ _ g1 Hk1).
      eexists. split; [done|]. intros i. rewrite <-Hrev.
      destruct (join_merge gameState g1) as [merged|] eqn:Hm; [|done].
      by apply (join_merge_keeps _ _ _ Hm).
    + rewrite on_JOIN_GAME_lookup_ne by done.
      exists g1. split; [done|]. intros i. by rewrite Hrev.
  - destruct (decide (k = gameKey)) as [->|Hne].
    + unfold on_REVEAL_CARD.
      case_bool_decide; [exists g; split; [done|by intros ?]|].
      rewrite Hk.
      destruct (JsArray.get (revealed g) cardIndex);
        [exists g; split; [done|by intros ?]|].
      simpl. rewrite lookup_insert_eq. eexists. split; [done|]. intros i Hi'.
      destruct (calculateDerivedState_frame
        (switch_turn (nth_key (colors g) cardIndex)
           (set_lastActivity now
              (set_revealed (JsArray.set_true (revealed g) cardIndex) g))))
        as (_ & _ & -> & _).
      destruct (switch_turn_frame (nth_key (colors g) cardIndex)
           (set_lastActivity now
              (set_revealed (JsArray.set_true (revealed g) cardIndex) g)))
        as (_ & _ & -> & _).
      simpl. by apply at_index_set_true_keeps.
    + rewrite on_REVEAL_CARD_lookup_ne by done. exists g. split; [done|by intros ?].
  - destruct (leaveCurrentGame_same_play socket now s k g Hk)
      as (g1 & Hk1 & (_ & _ & Hrev & _)).
    exists g1. split; [done|]. intros i. by rewrite Hrev.
Qed.

Lemma step_keeps_revealed s i k g :
  keeps_sessions i → activeGames s !! k = Some g →
  ∃ g', activeGames (step s i).1 !! k = Some g' ∧ keeps_revealed g g'.
Proof.
  destruct i as [socket now m|socket now m|now]; simpl; [| |done].
  - apply dispatch_keeps_revealed.
  - intros Hi. apply dispatch_keeps_revealed. by destruct m.
Qed.

Lemma run_keeps_revealed inputs : ∀ s k g,
  Forall keeps_sessions inputs → activeGames s !! k = Some g →
  ∃ g', activeGames (run s inputs) !! k = Some g' ∧ keeps_revealed g g'.
Proof.
  induction inputs as [|i inputs IH]; intros s k g Hall Hk.
  - exists g. split; [done|by intros ?].
  - apply Forall_cons in Hall as [Hi Hall].
    destruct (step_keeps_revealed s i k g Hi Hk) as (g1 & Hk1 & H1).
    destruct (IH _ k g1 Hall Hk1) as (g2 & Hk2 & H2).
    exists g2. split; [done|]. intros j Hj. by apply H2, H1.
Qed.

(** C3. The reveal flags of a session are monotonic: along every sequence
    of reveals and joins (merges), by any sockets and on any keys, a flag
    that is set stays set. In particular, on two vectors of 25 booleans the
    merge returns their elementwise OR. *)
Theorem revealed_is_monotonic :
  (∀ (s : Server) (inputs : list input) (gameKey : string) (g : Game) (i : nat),
     Forall keeps_sessions inputs →
     activeGames s !! gameKey = Some g →
     JsArray.at_index (revealed g) i = true →
     ∃ g', activeGames (run s inputs) !! gameKey = Some g' ∧
           JsArray.at_index (revealed g') i = true) ∧
  (∀ (base : Game) (authoritative incoming : list bool) (team : option string),
     length authoritative = 25 → length incoming = 25 →
     JsArray.elems (revealed base) = JsArray.Elem <$> authoritative →
     ∃ g', merge base (snapshot incoming team) = Some g' ∧
           JsArray.elems (revealed g')
             = JsArray.Elem <$> zip_with orb authoritative incoming).
Proof.
  split.
  - intros s inputs gameKey g i Hall Hk Hi.
    destruct (run_keeps_revealed inputs s gameKey g Hall Hk) as (g' & Hk' & Hkeeps).
    exists g'. split; [done|]. by apply Hkeeps.
  - intros base authoritative incoming team Hla Hli Hbase.
    destruct (merge_snapshot base incoming team) as (l & -> & Hl).
    eexists. split; [done|]. simpl.
    apply list_eq. intros j. rewrite Hl, Hbase, !list_lookup_fmap, lookup_zip_with.
    destruct (authoritative !! j) as [b|] eqn:Hb; simpl; [|done].
    destruct (incoming !! j) as [c|] eqn:Hc; simpl; [done|].
    apply lookup_lt_Some in Hb. apply lookup_ge_None in Hc. lia.
Qed.

(** ** Reveals *)

Lemma on_REVEAL_CARD_applied socket now gameKey cardIndex s g :
  currentGames s !! socket = Some gameKey →
  activeGames s !! gameKey = Some g →
  JsArray.get (revealed g) cardIndex = false →
  on_REVEAL_CARD true socket now gameKey cardIndex s =
    ({| activeGames := <[gameKey := reveal_card now cardIndex g]> (activeGames s);
        currentGames := currentGames s |},
     (if gameOver (reveal_card now cardIndex g)
         && bool_decide (is_Some (winner (reveal_card now cardIndex g)))
      then [stats_completeGame gameKey] else [])
     ++ [emit_GAME_STATE gameKey (reveal_card now cardIndex g)]).
Proof.
  intros Hc Hg Hr. unfold on_REVEAL_CARD.
  rewrite bool_decide_eq_false_2 by (by intros ?).
  rewrite Hg, Hr. fold (reveal_card now cardIndex g).
  by destruct (_ && _).
Qed.

Lemma on_REVEAL_CARD_applied_early socket now gameKey cardIndex s g :
  currentGames s !! socket = Some gameKey →
  activeGames s !! gameKey = Some g →
  JsArray.get (revealed g) cardIndex = false →
  on_REVEAL_CARD false socket now gameKey cardIndex s =
    ({| activeGames := <[gameKey := reveal_card now cardIndex g]> (activeGames s);
        currentGames := currentGames s |},
     if gameOver (reveal_card now cardIndex g)
        && bool_decide (is_Some (winner (reveal_card now cardIndex g)))
     then [stats_completeGame gameKey; uncaught_TypeError]
     else [emit_GAME_STATE gameKey (reveal_card now cardIndex g)]).
Proof.
  intros Hc Hg Hr. unfold on_REVEAL_CARD.
  rewrite bool_decide_eq_false_2 by (by intros ?).
  by rewrite Hg, Hr.
Qed.

Lemma on_REVEAL_CARD_applied_state loaded socket now gameKey cardIndex s g :
  currentGames s !! socket = Some gameKey →
  activeGames s !! gameKey = Some g →
  JsArray.get (revealed g) cardIndex = false →
  (on_REVEAL_CARD loaded socket now gameKey cardIndex s).1 =
    {| activeGames := <[gameKey := reveal_card now cardIndex g]> (activeGames s);
       currentGames := currentGames s |}.
Proof.
  intros Hc Hg Hr. unfold on_REVEAL_CARD.
  rewrite bool_decide_eq_false_2 by (by intros ?).
  by rewrite Hg, Hr.
Qed.

Lemma on_REVEAL_CARD_ignored {loaded : bool} socket now gameKey cardIndex s :
  currentGames s !! socket ≠ Some gameKey ∨
  activeGames s !! gameKey = None ∨
  (∃ g, activeGames s !! gameKey = Some g ∧ JsArray.get (revealed g) cardIndex = true) →
  on_REVEAL_CARD loaded socket now gameKey cardIndex s = (s, []).
Proof.
  unfold on_REVEAL_CARD. intros [Hc|[Hg|(g & Hg & Hr)]].
  - by rewrite bool_decide_eq_true_2.
  - case_bool_decide; [done|]. by rewrite Hg.
  - case_bool_decide; [done|]. by rewrite Hg, Hr.
Qed.

Lemma reveal_card_frame now cardIndex g :
  words (reveal_card now cardIndex g) = words g ∧
  colors (reveal_card now cardIndex g) = colors g ∧
  revealed (reveal_card now cardIndex g) = JsArray.set_true (revealed g) cardIndex ∧
  currentTeam (reveal_card now cardIndex g)
    = currentTeam (switch_turn (nth_key (colors g) cardIndex) g) ∧
  lastActivity (reveal_card now cardIndex g) = now ∧
  players (reveal_card now cardIndex g) = players g.
Proof.
  unfold reveal_card.
  destruct (calculateDerivedState_frame
    (switch_turn (nth_key (colors g) cardIndex)
       (set_lastActivity now
          (set_revealed (JsArray.set_true (revealed g) cardIndex) g))))
    as (-> & -> & -> & -> & -> & ->).
  unfold switch_turn. simpl. by destruct (_ || _).
Qed.

(** C2. When a socket reveals a card that is not yet revealed in the session
    it is attached to, and the session's [currentTeam] is a team colour: if
    the card's colour is that of [currentTeam] the turn stays, and for every
    other colour (neutral, the other team's, the assassin's) the turn passes
    to the other team. The handler does not look at [gameOver], so this
    holds in particular for every session that is not over. *)
Theorem reveal_turn_rule (s : Server) (socket : string) (now : Z) (gameKey : string)
    (cardIndex : Z) (g : Game) (c : string) :
  currentGames s !! socket = Some gameKey →
  activeGames s !! gameKey = Some g →
  nth_key (colors g) cardIndex = Some c →
  JsArray.get (revealed g) cardIndex = false →
  currentTeam g = "blue" ∨ currentTeam g = "red" →
  ∃ g', activeGames (step s (from_socket socket now (REVEAL_CARD gameKey cardIndex))).1
          !! gameKey = Some g' ∧
        (c = currentTeam g → currentTeam g' = currentTeam g) ∧
        (c ≠ currentTeam g →
           (currentTeam g = "blue" → currentTeam g' = "red") ∧
           (currentTeam g = "red" → currentTeam g' = "blue")).
Proof.
  intros Hc Hg Hcol Hr Hteam. simpl.
  rewrite (on_REVEAL_CARD_applied _ _ _ _ _ g Hc Hg Hr). simpl.
  rewrite lookup_insert_eq. eexists. split; [done|].
  destruct (reveal_card_frame now cardIndex g) as (_ & _ & _ & -> & _).
  rewrite Hcol. unfold switch_turn. split.
  - intros ->. rewrite bool_decide_eq_false_2 by (by intros ?).
    rewrite bool_decide_eq_false_2; [done|].
    intros [= Hn]. destruct Hteam as [Ht|Ht]; rewrite Ht in Hn; discriminate.
  - intros Hne. rewrite bool_decide_eq_true_2 by congruence. simpl.
    split; intros Ht; rewrite Ht; done.
Qed.

(** C5 (as stated, refuted). In the completed session "K" (the assassin is
    revealed, [gameOver] is true) the card 5 is not revealed; a REVEAL_CARD
    for it by the attached socket sets the flag, passes the turn, updates
    [lastActivity], notifies the statistics again and broadcasts the state. *)
Lemma completed_session_accepts_reveal :
  let before := activeGames completed !! "K" in
  let r := step completed (from_socket "a" 50 (REVEAL_CARD "K" 5)) in
  let after := activeGames r.1 !! "K" in
  gameOver <$> before = Some true ∧
  (λ g, JsArray.at_index (revealed g) 5) <$> before = Some false ∧
  (λ g, JsArray.at_index (revealed g) 5) <$> after = Some true ∧
  currentTeam <$> before = Some "blue" ∧ currentTeam <$> after = Some "red" ∧
  lastActivity <$> before = Some 40%Z ∧ lastActivity <$> after = Some 50%Z ∧
  (∃ g', r.2 = [stats_completeGame "K"; emit_GAME_STATE "K" g']) ∧
  r ≠ (completed, []).
Proof.
  cbv zeta. repeat split; try (vm_compute; reflexivity).
  - eexists. vm_compute. reflexivity.
  - intros Heq. apply (f_equal snd) in Heq. vm_compute in Heq. discriminate.
Qed.

(** C5 (amended). In a completed session a REVEAL_CARD is a no-op, without
    any broadcast, when it comes from a socket that is not attached to the
    session or names a card that is already revealed. There is no game-over
    guard: a REVEAL_CARD from the attached socket for a card that is not
    revealed is applied as in any session: the flag is set, [lastActivity]
    updated, the turn rule applied, the state derived again and broadcast.
    While the statistics are not loaded all of this is the same but for the
    end of an applied reveal: when the updated session is over with a
    winner, [gameStats.completeGame] throws and the broadcast is not sent. *)
Theorem reveal_on_completed_session (s : Server) (socket : string) (now : Z)
    (gameKey : string) (cardIndex : Z) (g : Game) :
  activeGames s !! gameKey = Some g →
  gameOver g = true →
  (currentGames s !! socket ≠ Some gameKey ∨ JsArray.get (revealed g) cardIndex = true →
   step s (from_socket socket now (REVEAL_CARD gameKey cardIndex)) = (s, [])) ∧
  (currentGames s !! socket = Some gameKey →
   JsArray.get (revealed g) cardIndex = false →
   ∃ g' stats,
     step s (from_socket socket now (REVEAL_CARD gameKey cardIndex))
       = ({| activeGames := <[gameKey := g']> (activeGames s);
             currentGames := currentGames s |},
          stats ++ [emit_GAME_STATE gameKey g']) ∧
     derived_ok g' ∧
     revealed g' = JsArray.set_true (revealed g) cardIndex ∧
     JsArray.get (revealed g') cardIndex = true ∧
     currentTeam g' = currentTeam (switch_turn (nth_key (colors g) cardIndex) g) ∧
     lastActivity g' = now) ∧
  (currentGames s !! socket ≠ Some gameKey ∨ JsArray.get (revealed g) cardIndex = true →
   step s (from_socket_early socket now (REVEAL_CARD gameKey cardIndex)) = (s, [])) ∧
  (currentGames s !! socket = Some gameKey →
   JsArray.get (revealed g) cardIndex = false →
   ∃ g',
     activeGames (step s (from_socket socket now (REVEAL_CARD gameKey cardIndex))).1
       !! gameKey = Some g' ∧
     step s (from_socket_early socket now (REVEAL_CARD gameKey cardIndex))
       = ({| activeGames := <[gameKey := g']> (activeGames s);
             currentGames := currentGames s |},
          if gameOver g' && bool_decide (is_Some (winner g'))
          then [stats_completeGame gameKey; uncaught_TypeError]
          else [emit_GAME_STATE gameKey g'])).
Proof.
  intros Hg Hover. split_and!.
  - intros [Hc|Hr]; apply on_REVEAL_CARD_ignored; [by left|].
    right. right. by exists g.
  - intros Hc Hr. simpl. rewrite (on_REVEAL_CARD_applied _ _ _ _ _ g Hc Hg Hr).
    eexists _, _. split; [done|].
    destruct (reveal_card_frame now cardIndex g) as (_ & _ & Hrev & Hteam & Hnow & _).
    rewrite Hrev.
    split_and!; [apply calculateDerivedState_ok|done|apply get_set_true|done|done].
  - intros [Hc|Hr]; apply on_REVEAL_CARD_ignored; [by left|].
    right. right. by exists g.
  - intros Hc Hr. simpl. rewrite (on_REVEAL_CARD_applied _ _ _ _ _ g Hc Hg Hr).
    rewrite (on_REVEAL_CARD_applied_early _ _ _ _ _ g Hc Hg Hr).
    eexists. split; [apply lookup_insert_eq|done].
Qed.

(** ** Reveals outside the board *)

Lemma reduce_from_ext {A B : Type} (f f' : B → A → nat → B) (l : list A) :
  ∀ i acc, (∀ j x b, l !! j = Some x → f b x (i + j) = f' b x (i + j)) →
  reduce_from f i l acc = reduce_from f' i l acc.
Proof.
  induction l as [|y l IH]; intros i acc Hext; [done|]. simpl.
  pose proof (Hext 0 y acc eq_refl) as Hhead.
  rewrite Nat.add_0_r in Hhead. rewrite Hhead.
  apply IH. intros j x b Hj.
  replace (S i + j) with (i + S j) by lia. by apply Hext.
Qed.

Lemma some_from_ext {A : Type} (p p' : A → nat → bool) (l : list A) :
  ∀ i, (∀ j x, l !! j = Some x → p x (i + j) = p' x (i + j)) →
  some_from p i l = some_from p' i l.
Proof.
  induction l as [|y l IH]; intros i Hext; [done|]. simpl.
  pose proof (Hext 0 y eq_refl) as Hhead.
  rewrite Nat.add_0_r in Hhead. rewrite Hhead.
  f_equal. apply IH. intros j x Hj.
  replace (S i + j) with (i + S j) by lia. by apply Hext.
Qed.

(** [derive] reads the flags at the indices of the board only. *)
Lemma derive_ext (colors : list string) (r r' : JsArray.t) :
  (∀ i, i < length colors → JsArray.at_index r i = JsArray.at_index r' i) →
  derive colors r = derive colors r'.
Proof.
  intros Hext.
  assert (∀ color,
    reduce (λ sum c i,
        sum + (if bool_decide (c = color) && negb (JsArray.at_index r i)
               then 1 else 0)) colors 0
    = reduce (λ sum c i,
        sum + (if bool_decide (c = color) && negb (JsArray.at_index r' i)
               then 1 else 0)) colors 0) as Hcount.
  { intros color. apply reduce_from_ext.
    intros j x b Hj%lookup_lt_Some. by rewrite !Nat.add_0_l, Hext. }
  assert (some (λ c i, bool_decide (c = "black") && JsArray.at_index r i) colors
          = some (λ c i, bool_decide (c = "black") && JsArray.at_index r' i) colors)
    as Hblack.
  { apply some_from_ext.
    intros j x Hj%lookup_lt_Some. by rewrite !Nat.add_0_l, Hext. }
  unfold derive. cbv zeta. simpl blue. simpl red.
  by rewrite !Hcount, Hblack.
Qed.

Lemma outside_board (k : Z) :
  ¬ (0 ≤ k < 25)%Z → JsArray.is_index k = true → (25 ≤ Z.to_nat k)%nat.
Proof.
  unfold JsArray.is_index. intros Hout [H0 _]%andb_true_iff.
  apply bool_decide_eq_true in H0. lia.
Qed.

Lemma set_true_outside (a : JsArray.t) (k : Z) :
  (25 ≤ length (JsArray.elems a))%nat → ¬ (0 ≤ k < 25)%Z →
  take 25 (JsArray.elems (JsArray.set_true a k)) = take 25 (JsArray.elems a) ∧
  length (JsArray.elems (JsArray.set_true a k))
    = (if JsArray.is_index k
       then length (JsArray.elems a) `max` (Z.to_nat k + 1)
       else length (JsArray.elems a)) ∧
  JsArray.props (JsArray.set_true a k)
    = (if JsArray.is_index k then JsArray.props a else {[k]} ∪ JsArray.props a).
Proof.
  intros Hlen Hout. unfold JsArray.set_true.
  destruct (JsArray.is_index k) eqn:Hk; simpl; [|done].
  pose proof (outside_board k Hout Hk) as Hge.
  unfold JsArray.store. case_decide.
  - split_and!; [by apply take_insert_ge| |done].
    rewrite length_insert. lia.
  - split_and!; [by rewrite take_app_le by lia| |done].
    rewrite !length_app, length_replicate. simpl. lia.
Qed.

(** On a vector of exactly 25 entries only a key that is not an array index
    can read as marked outside the board. *)
Lemma get_outside (a : JsArray.t) (k : Z) :
  length (JsArray.elems a) = 25 → ¬ (0 ≤ k < 25)%Z →
  JsArray.get a k = true →
  JsArray.is_index k = false ∧ k ∈ JsArray.props a.
Proof.
  intros Hlen Hout. unfold JsArray.get, JsArray.at_index.
  destruct (JsArray.is_index k) eqn:Hk.
  - pose proof (outside_board k Hout Hk) as Hge.
    rewrite lookup_ge_None_2 by lia. done.
  - intros Hin%bool_decide_eq_true. done.
Qed.

(** The array a merge returns: marks at array indices are kept, the keys
    that are not array indices are gone. *)
Lemma merge_marks (g merged : Game) (newState : GameState) (k : Z) :
  merge g newState = Some merged →
  (JsArray.is_index k = false → JsArray.get (revealed merged) k = false) ∧
  (JsArray.is_index k = true → JsArray.get (revealed g) k = true →
   JsArray.get (revealed merged) k = true).
Proof.
  unfold merge. intros Hm.
  destruct (mergeGameStates (Some g) newState) as [[g'|]|] eqn:Hmerge;
    simplify_eq/=.
  apply mergeGameStates_session in Hmerge as (r & Hr & [= ->]).
  unfold JsArray.get. split; intros ->; simpl.
  - unfold JsArray.map in Hr.
    destruct (JsArray.map_from _ 0 _); simplify_eq/=. done.
  - by apply (map_or_incoming_keeps newState).
Qed.

(** C7 (as stated, refuted). In the fresh session "K" a REVEAL_CARD with
    [cardIndex] 25 grows the vector of flags to length 26, updates
    [lastActivity], passes the turn and broadcasts the state. *)
Lemma reveal_at_index_25_mutates :
  let before := activeGames created !! "K" in
  let r := step created (from_socket "a" 50 (REVEAL_CARD "K" 25)) in
  let after := activeGames r.1 !! "K" in
  (λ g, length (JsArray.elems (revealed g))) <$> before = Some 25 ∧
  (λ g, length (JsArray.elems (revealed g))) <$> after = Some 26 ∧
  (λ g, JsArray.elems (revealed g) !! 25) <$> after = Some (Some (JsArray.Elem true)) ∧
  lastActivity <$> before = Some 10%Z ∧ lastActivity <$> after = Some 50%Z ∧
  currentTeam <$> before = Some "blue" ∧ currentTeam <$> after = Some "red" ∧
  (∃ g', r.2 = [emit_GAME_STATE "K" g']) ∧
  r ≠ (created, []).
Proof.
  cbv zeta. repeat split; try (vm_compute; reflexivity).
  - eexists. vm_compute. reflexivity.
  - intros Heq. apply (f_equal snd) in Heq. vm_compute in Heq. discriminate.
Qed.

(** C7 (amended). Take a session with a board of 25 colours whose vector
    of flags has at least 25 entries (25 at creation; an earlier reveal past
    the end can have grown it), and a REVEAL_CARD of the attached socket
    whose [cardIndex] is an integer outside 0 <= index < 25. There is no
    range check; the command never changes one of the 25 flags of the board,
    and the derived fields stay those of the unchanged flags.
    - If [revealed[cardIndex]] is truthy the command is a no-op without
      broadcast. On a vector of exactly 25 entries this happens only for a
      key that is not an array index (a negative integer, or one from
      4294967295 on) and that an earlier such command recorded as a property
      of the array. The merge of a JOIN_GAME returns a fresh array: it keeps
      the marks at array indices and loses those properties, so after a
      merge the same command is applied again.
    - Otherwise the key is marked: for an array index (25 to 4294967294) the
      vector grows to length [cardIndex + 1] unless it is that long already,
      for any other integer the length stays and the key is added to the
      properties; [lastActivity] is updated, the turn passes to the other
      team, and the state is broadcast. One exception to the broadcast: when
      the session is over with a winner and the statistics are not loaded,
      [gameStats.completeGame] throws after the update and nothing is
      sent. *)
Theorem reveal_out_of_range (s : Server) (socket : string) (now : Z)
    (gameKey : string) (cardIndex : Z) (g : Game) :
  currentGames s !! socket = Some gameKey →
  activeGames s !! gameKey = Some g →
  length (colors g) = 25 →
  (25 ≤ length (JsArray.elems (revealed g)))%nat →
  ¬ (0 ≤ cardIndex < 25)%Z →
  (JsArray.get (revealed g) cardIndex = true →
   step s (from_socket socket now (REVEAL_CARD gameKey cardIndex)) = (s, []) ∧
   step s (from_socket_early socket now (REVEAL_CARD gameKey cardIndex)) = (s, [])) ∧
  (length (JsArray.elems (revealed g)) = 25 →
   JsArray.get (revealed g) cardIndex = true →
   JsArray.is_index cardIndex = false ∧ cardIndex ∈ JsArray.props (revealed g)) ∧
  (∀ (newState : GameState) (merged : Game),
     merge g newState = Some merged →
     (JsArray.is_index cardIndex = false →
      JsArray.get (revealed merged) cardIndex = false) ∧
     (JsArray.is_index cardIndex = true →
      JsArray.get (revealed g) cardIndex = true →
      JsArray.get (revealed merged) cardIndex = true)) ∧
  (JsArray.get (revealed g) cardIndex = false →
   ∃ g' stats,
     step s (from_socket socket now (REVEAL_CARD gameKey cardIndex))
       = ({| activeGames := <[gameKey := g']> (activeGames s);
             currentGames := currentGames s |},
          stats ++ [emit_GAME_STATE gameKey g']) ∧
     step s (from_socket_early socket now (REVEAL_CARD gameKey cardIndex))
       = ({| activeGames := <[gameKey := g']> (activeGames s);
             currentGames := currentGames s |},
          if gameOver g' && bool_decide (is_Some (winner g'))
          then [stats_completeGame gameKey; uncaught_TypeError]
          else [emit_GAME_STATE gameKey g']) ∧
     take 25 (JsArray.elems (revealed g')) = take 25 (JsArray.elems (revealed g)) ∧
     length (JsArray.elems (revealed g'))
       = (if JsArray.is_index cardIndex
          then length (JsArray.elems (revealed g)) `max` (Z.to_nat cardIndex + 1)
          else length (JsArray.elems (revealed g))) ∧
     JsArray.props (revealed g')
       = (if JsArray.is_index cardIndex then JsArray.props (revealed g)
          else {[cardIndex]} ∪ JsArray.props (revealed g)) ∧
     JsArray.get (revealed g') cardIndex = true ∧
     (remainingCards g', gameOver g', winner g') = derive (colors g) (revealed g) ∧
     words g' = words g ∧ colors g' = colors g ∧ players g' = players g ∧
     currentTeam g' = (if bool_decide (currentTeam g = "blue") then "red" else "blue") ∧
     lastActivity g' = now).
Proof.
  intros Hc Hg Hcolors Hlen Hout. split_and!.
  - intros Hr. split; apply on_REVEAL_CARD_ignored; right; right; by exists g.
  - intros Hlen25. by apply get_outside.
  - intros newState merged. apply merge_marks.
  - intros Hr. simpl. rewrite (on_REVEAL_CARD_applied _ _ _ _ _ g Hc Hg Hr).
    rewrite (on_REVEAL_CARD_applied_early _ _ _ _ _ g Hc Hg Hr).
    eexists _, _. split; [done|]. split; [done|].
    destruct (reveal_card_frame now cardIndex g)
      as (Hwords & Hcol & Hrev & Hteam & Hnow & Hplayers).
    destruct (set_true_outside (revealed g) cardIndex Hlen Hout)
      as (Htake & Hlength & Hprops).
    rewrite Hrev.
    split_and!; [done|done|done|apply get_set_true| |done|done|done| |done].
    + pose proof (calculateDerivedState_ok
        (switch_turn (nth_key (colors g) cardIndex)
           (set_lastActivity now
              (set_revealed (JsArray.set_true (revealed g) cardIndex) g)))) as Hok.
      unfold derived_ok in Hok. fold (reveal_card now cardIndex g) in Hok.
      rewrite Hok, Hcol, Hrev. apply derive_ext. intros i Hi.
      apply at_index_set_true_other. intros Hk%(outside_board _ Hout). lia.
    + rewrite Hteam. unfold switch_turn.
      replace (nth_key (colors g) cardIndex) with (@None string); [done|].
      unfold nth_key. destruct (JsArray.is_index cardIndex) eqn:Hk; [|done].
      symmetry. apply lookup_ge_None.
      pose proof (outside_board _ Hout Hk). lia.
Qed.

(** ** Merging is a frame-preserving, order-independent OR *)

Lemma leaveCurrentGame_lookup_None socket now s k :
  activeGames s !! k = None →
  activeGames (leaveCurrentGame socket now s).1 !! k = None.
Proof.
  intros Hk.
  by destruct (leaveCurrentGame_lookup socket now s k) as [-> | ->]; rewrite Hk.
Qed.

(** What a JOIN_GAME does to a session that exists: creation is skipped,
    the board and the turn are kept and no flag is cleared. *)
Lemma on_JOIN_GAME_live loaded socket now gameKey ws cs gameState s g :
  activeGames s !! gameKey = Some g →
  ∃ g', activeGames (on_JOIN_GAME loaded socket now gameKey ws cs gameState s).1
          !! gameKey = Some g' ∧
        words g' = words g ∧
        colors g' = colors g ∧
        currentTeam g' = currentTeam g ∧
        keeps_revealed g g'.
Proof.
  intros Hg.
  destruct (leaveCurrentGame_same_play socket now s gameKey g Hg)
    as (g1 & Hg1 & (Hw & Hc & Hr & Ht & _)).
  rewrite (on_JOIN_GAME_lookup_existing _ _ _ _ _ _ _ g1 Hg1).
  eexists. split; [done|].
  destruct (join_merge gameState g1) as [merged|] eqn:Hm.
  - destruct (join_merge_frame _ _ _ Hm) as (Hw' & Hc' & Ht' & _).
    pose proof (join_merge_keeps _ _ _ Hm) as Hkeeps.
    simpl. rewrite Hw', Hc', Ht'. split_and!; try done.
    intros i Hi. apply Hkeeps. by rewrite Hr.
  - split_and!; try done. intros i. by rewrite Hr.
Qed.

(** C8. Merging an incoming snapshot into a live session changes the flags
    only: [mergeGameStates] returns the base session with a new [revealed];
    the merge block of JOIN_GAME then changes [revealed] and the derived
    fields and nothing else; so after a JOIN_GAME on an existing session the
    board and [currentTeam] are those of the session, whatever the snapshot
    carries. The snapshot's [currentTeam] is taken when JOIN_GAME creates
    the session from it. *)
Theorem merge_changes_only_revealed :
  (∀ (base : Game) (newState : GameState) (merged : Game + GameState),
     mergeGameStates (Some base) newState = Some merged →
     ∃ g', merged = inl g' ∧ same_but_revealed base g') ∧
  (∀ (gameState : option GameState) (g merged : Game),
     join_merge gameState g = Some merged →
     words merged = words g ∧ colors merged = colors g ∧
     currentTeam merged = currentTeam g ∧ lastActivity merged = lastActivity g ∧
     players merged = players g) ∧
  (∀ (s : Server) (socket : string) (now : Z) (gameKey : string)
     (ws cs : option (list string)) (newState : GameState) (g : Game),
     activeGames s !! gameKey = Some g →
     ∃ g', activeGames (step s (from_socket socket now
                          (JOIN_GAME gameKey ws cs (Some newState)))).1
             !! gameKey = Some g' ∧
           words g' = words g ∧
           colors g' = colors g ∧
           currentTeam g' = currentTeam g) ∧
  (∀ (s : Server) (socket : string) (now : Z) (gameKey : string)
     (w c : list string) (newState : GameState) (team : string),
     activeGames s !! gameKey = None →
     gs_currentTeam newState = Some team → team ≠ "" →
     ∃ g', activeGames (step s (from_socket socket now
                          (JOIN_GAME gameKey (Some w) (Some c) (Some newState)))).1
             !! gameKey = Some g' ∧
           words g' = w ∧ colors g' = c ∧
           currentTeam g' = team).
Proof.
  split_and!.
  - intros base newState merged (r & _ & ->)%mergeGameStates_session.
    eexists. split; [done|]. by unfold same_but_revealed.
  - intros gameState g merged. apply join_merge_frame.
  - intros s socket now gameKey ws cs newState g Hg. simpl.
    destruct (on_JOIN_GAME_live true socket now gameKey ws cs (Some newState) s g Hg)
      as (g' & Hg' & Hw & Hc & Ht & _).
    by exists g'.
  - intros s socket now gameKey w c newState team Hnone Hteam Hne. simpl.
    apply (leaveCurrentGame_lookup_None socket now) in Hnone.
    rewrite (on_JOIN_GAME_create _ _ _ _ _ _ _ Hnone). cbv zeta.
    set (g := createNewGameState now gameKey (Some w) (Some c) (Some newState)).
    assert (words g = w ∧ colors g = c ∧ currentTeam g = team)
      as (Hw & Hc & Ht).
    { unfold g, createNewGameState.
      match goal with |- context [calculateDerivedState ?x] =>
        destruct (calculateDerivedState_frame x) as (-> & -> & _ & -> & _) end.
      simpl. rewrite Hteam. by rewrite bool_decide_eq_false_2. }
    destruct (join_merge (Some newState) g) as [merged|] eqn:Hm; simpl.
    + rewrite lookup_insert_eq. eexists. split; [done|].
      destruct (join_merge_frame _ _ _ Hm) as (Hw' & Hc' & Ht' & _).
      simpl. by rewrite Hw', Hc', Ht'.
    + rewrite lookup_insert_eq. by exists g.
Qed.

(** C9. For every session [S] and any two snapshots [A], [B] of 25 flags,
    merging [A] and then [B] gives the session that merging their
    elementwise OR gives, and the order of [A] and [B] does not matter. *)
Theorem merge_convergence (S : Game) (A B : list bool) (tA tB tAB : option string) :
  length A = 25 → length B = 25 →
  ∃ merged,
    merge S (snapshot (zip_with orb A B) tAB) = Some merged ∧
    merge S (snapshot A tA) ≫= (λ g, merge g (snapshot B tB)) = Some merged ∧
    merge S (snapshot B tB) ≫= (λ g, merge g (snapshot A tA)) = Some merged.
Proof.
  intros HA HB.
  assert (∀ (X Y : list bool) tX tY, length X = 25 → length Y = 25 →
    ∀ l, (∀ j, l !! j = match JsArray.elems (revealed S) !! j with
                        | Some JsArray.Hole => Some JsArray.Hole
                        | Some (JsArray.Elem b) =>
                            Some (JsArray.Elem
                                    (b || default false (zip_with orb A B !! j)))
                        | None => None
                        end) →
    (∀ j, default false (X !! j) || default false (Y !! j)
          = default false (zip_with orb A B !! j)) →
    merge S (snapshot X tX) ≫= (λ g, merge g (snapshot Y tY))
    = Some (set_revealed {| JsArray.elems := l; JsArray.props := ∅ |} S)) as Hseq.
  { intros X Y tX tY HX HY l Hl Hor.
    destruct (merge_snapshot S X tX) as (l1 & -> & Hl1). simpl.
    destruct (merge_snapshot
      (set_revealed {| JsArray.elems := l1; JsArray.props := ∅ |} S) Y tY)
      as (l2 & -> & Hl2).
    simpl in Hl2. assert (l2 = l) as ->; [|done].
    apply list_eq. intros j. rewrite Hl2, Hl1, Hl.
    destruct (JsArray.elems (revealed S) !! j) as [[|b]|]; try done.
    by rewrite <-Hor, orb_assoc. }
  assert (∀ j, default false (A !! j) || default false (B !! j)
               = default false (zip_with orb A B !! j)) as Hor.
  { intros j. rewrite lookup_zip_with.
    destruct (A !! j) as [a|] eqn:Ha, (B !! j) as [b|] eqn:Hb; simpl; try done.
    - apply lookup_lt_Some in Ha. apply lookup_ge_None in Hb. lia.
    - apply lookup_lt_Some in Hb. apply lookup_ge_None in Ha. lia. }
  destruct (merge_snapshot S (zip_with orb A B) tAB) as (l & Hmerge & Hl).
  eexists. split; [exact Hmerge|]. split.
  - by apply Hseq.
  - apply Hseq; try done. intros j. by rewrite orb_comm.
Qed.

(** ** NEW_GAME *)

Lemma createNewGameState_fresh now gameKey ws cs :
  let g := createNewGameState now gameKey ws cs None in
  words g = default [] ws ∧ colors g = default [] cs ∧
  revealed g = JsArray.fill 25 false ∧ currentTeam g = "blue" ∧
  lastActivity g = now ∧ players g = ∅.
Proof.
  cbv zeta. unfold createNewGameState.
  match goal with |- context [calculateDerivedState ?x] =>
    by destruct (calculateDerivedState_frame x) as (-> & -> & -> & -> & -> & ->) end.
Qed.



(** ** Disconnect *)

(** C10 (as stated, refuted). Socket "a" is the only player of the session
    "K", whose [lastActivity] is 10; when it disconnects at time 99 the
    players set becomes empty and [lastActivity] becomes 99. *)
Lemma last_disconnect_updates_lastActivity :
  let before := activeGames created !! "K" in
  let r := step created (from_socket "a" 99 disconnect) in
  let after := activeGames r.1 !! "K" in
  (λ g, elements (players g)) <$> before = Some ["a"] ∧
  (λ g, elements (players g)) <$> after = Some [] ∧
  lastActivity <$> before = Some 10%Z ∧
  lastActivity <$> after = Some 99%Z.
Proof. cbv zeta. repeat split; vm_compute; reflexivity. Qed.

(** C10 (amended). Take a connection whose current key names a session of
    the registry, and let it disconnect.
    - If the key is not the empty string, the connection is removed from
      the session's players, its current key is cleared, and the board, the
      flags, the turn and the derived fields are unchanged; [lastActivity]
      is unchanged too as long as a player remains, and is set to the
      current time when the players set becomes empty. No other session
      changes, the socket leaves the room and nothing is broadcast.
    - If the key is the empty string, [if (currentGame)] is false and the
      disconnect does nothing: the connection stays among the players.
    The statistics are not called, so it makes no difference whether they
    are loaded. *)
Theorem disconnect_detaches_presence (s : Server) (socket : string) (now : Z)
    (gameKey : string) (g : Game) :
  currentGames s !! socket = Some gameKey →
  activeGames s !! gameKey = Some g →
  (gameKey ≠ "" →
   ∃ g', step s (from_socket socket now disconnect)
           = ({| activeGames := <[gameKey := g']> (activeGames s);
                 currentGames := delete socket (currentGames s) |},
              [socket_leave socket gameKey]) ∧
         players g' = players g ∖ {[socket]} ∧
         words g' = words g ∧ colors g' = colors g ∧ revealed g' = revealed g ∧
         currentTeam g' = currentTeam g ∧ remainingCards g' = remainingCards g ∧
         gameOver g' = gameOver g ∧ winner g' = winner g ∧
         lastActivity g' = (if decide (players g ∖ {[socket]} = ∅) then now
                            else lastActivity g)) ∧
  (gameKey = "" → step s (from_socket socket now disconnect) = (s, [])) ∧
  step s (from_socket_early socket now disconnect)
    = step s (from_socket socket now disconnect).
Proof.
  intros Hc Hg. split_and!; [| |done].
  - intros Hne. simpl. unfold on_disconnect.
    rewrite (leaveCurrentGame_attached _ _ _ _ Hc Hne), Hg.
    eexists. split; [done|].
    unfold detach. simpl.
    case_bool_decide as Hsize.
    + apply size_empty_inv in Hsize. apply leibniz_equiv in Hsize.
      rewrite decide_True by done. done.
    + rewrite decide_False; [done|]. intros Hempty. apply Hsize.
      rewrite Hempty. apply size_empty.
  - intros ->. simpl. unfold on_disconnect, leaveCurrentGame. by rewrite Hc.
Qed.

(** ** The theorems at work on the concrete game *)

Lemma created_session : activeGames created !! "K" = Some fresh_game.
Proof. vm_compute. reflexivity. Defined.

Lemma completed_session : activeGames completed !! "K" = Some completed_game.
Proof. vm_compute. reflexivity. Defined.

(** C1 at the completed game: the assassin is revealed, so it wins. *)
Lemma derive_counts_and_precedence_witness :
  (derive board (revealed completed_game)).2 = Some "assassin".
Proof.
  pose proof (derive_counts_and_precedence board (revealed completed_game)) as Hspec.
  destruct (derive board (revealed completed_game)) as [[remaining over] win].
  destruct Hspec as (_ & _ & Hassassin & _).
  apply Hassassin. exists 3. split; reflexivity.
Defined.

(** C2: team blue reveals the red card 1 and the turn passes to red. *)
Lemma reveal_turn_rule_witness :
  ∃ g', activeGames (step created (from_socket "a" 20 (REVEAL_CARD "K" 1))).1 !! "K"
          = Some g' ∧ currentTeam g' = "red".
Proof.
  destruct (reveal_turn_rule created "a" 20 "K" 1 fresh_game "red")
    as (g' & Hg' & _ & Hswitch).
  - vm_compute. reflexivity.
  - exact created_session.
  - reflexivity.
  - reflexivity.
  - left. reflexivity.
  - exists g'. split; [exact Hg'|].
    destruct Hswitch as [Hblue _]; [discriminate|].
    apply Hblue. reflexivity.
Defined.

(** C3: card 0 stays revealed through a further reveal and a join that
    carries an empty snapshot; merging an all-true snapshot sets all flags. *)
Lemma revealed_is_monotonic_witness :
  (∃ g', activeGames
           (run completed
              [from_socket "a" 50 (REVEAL_CARD "K" 5);
               from_socket "b" 60
                 (JOIN_GAME "K" None None (Some (snapshot (replicate 25 false) None)))])
           !! "K" = Some g' ∧
         JsArray.at_index (revealed g') 0 = true) ∧
  (∃ g', merge completed_game (snapshot (replicate 25 true) None) = Some g' ∧
         JsArray.elems (revealed g') = JsArray.Elem <$> replicate 25 true).
Proof.
  destruct revealed_is_monotonic as [Hrun Hmerge]. split.
  - apply (Hrun completed _ "K" completed_game 0).
    + repeat constructor.
    + exact completed_session.
    + reflexivity.
  - apply (Hmerge completed_game
             ([true; true; false; true] ++ replicate 21 false)
             (replicate 25 true) None); reflexivity.
Defined.

(** C4: the completed game is reached from the start, and its stored fields
    are those [derive] gives. *)
Lemma derived_fields_never_drift_witness :
  (remainingCards completed_game, gameOver completed_game, winner completed_game)
  = derive (colors completed_game) (revealed completed_game).
Proof.
  apply (derived_fields_never_drift
    [from_socket "a" 10 (NEW_GAME "K" (Some []) (Some board));
     from_socket "a" 20 (REVEAL_CARD "K" 0);
     from_socket "a" 30 (REVEAL_CARD "K" 1);
     from_socket "a" 40 (REVEAL_CARD "K" 3)] "K").
  vm_compute. reflexivity.
Defined.

(** C5: in the completed game a reveal of card 3 (already revealed) is
    ignored and a reveal of card 5 is applied. *)
Lemma reveal_on_completed_session_witness :
  step completed (from_socket "a" 50 (REVEAL_CARD "K" 3)) = (completed, []) ∧
  ∃ g' stats,
    step completed (from_socket "a" 50 (REVEAL_CARD "K" 5))
      = ({| activeGames := <["K" := g']> (activeGames completed);
            currentGames := currentGames completed |},
         stats ++ [emit_GAME_STATE "K" g']) ∧
    JsArray.get (revealed g') 5 = true ∧ lastActivity g' = 50%Z.
Proof.
  split.
  - destruct (reveal_on_completed_session completed "a" 50 "K" 3 completed_game)
      as (Hignored & _).
    + exact completed_session.
    + reflexivity.
    + apply Hignored. right. reflexivity.
  - destruct (reveal_on_completed_session completed "a" 50 "K" 5 completed_game)
      as (_ & Happlied & _).
    + exact completed_session.
    + reflexivity.
    + destruct Happlied as (g' & stats & Hstep & _ & _ & Hget & _ & Hnow).
      * vm_compute. reflexivity.
      * reflexivity.
      * by exists g', stats.
Defined.


(** C7: index 25 on the fresh game. *)
Lemma reveal_out_of_range_witness :
  ∃ g' stats,
    step created (from_socket "a" 50 (REVEAL_CARD "K" 25))
      = ({| activeGames := <["K" := g']> (activeGames created);
            currentGames := currentGames created |},
         stats ++ [emit_GAME_STATE "K" g']) ∧
    take 25 (JsArray.elems (revealed g')) = JsArray.elems (revealed fresh_game) ∧
    length (JsArray.elems (revealed g')) = 26 ∧
    remainingCards g' = {| blue := 9; red := 8 |} ∧
    currentTeam g' = "red" ∧ lastActivity g' = 50%Z.
Proof.
  destruct (reveal_out_of_range created "a" 50 "K" 25 fresh_game)
    as (_ & _ & _ & Happlied).
  - vm_compute. reflexivity.
  - exact created_session.
  - reflexivity.
  - simpl. lia.
  - intros [_ Hlt]. discriminate Hlt.
  - destruct Happlied
      as (g' & stats & Hstep & _ & Htake & Hlen & _ & _ & Hderived & _ & _ & _ & Hteam
          & Hnow).
    + reflexivity.
    + exists g', stats. split_and!; try done.
      by injection Hderived as -> _ _.
Defined.

(** C8: a join on the completed game with a snapshot that claims team red
    keeps team blue; a join that creates the session "L" from that snapshot
    starts it with team red. *)
Lemma merge_changes_only_revealed_witness :
  (∃ g', activeGames
           (step completed
              (from_socket "b" 50
                 (JOIN_GAME "K" None None
                    (Some (snapshot (replicate 25 true) (Some "red")))))).1
           !! "K" = Some g' ∧
         colors g' = board ∧ currentTeam g' = "blue") ∧
  (∃ g', activeGames
           (step completed
              (from_socket "b" 50
                 (JOIN_GAME "L" (Some []) (Some board)
                    (Some (snapshot (replicate 25 false) (Some "red")))))).1
           !! "L" = Some g' ∧
         colors g' = board ∧ currentTeam g' = "red").
Proof.
  destruct merge_changes_only_revealed as (_ & _ & Hlive & Hcreate). split.
  - destruct (Hlive completed "b" 50%Z "K" None None
                (snapshot (replicate 25 true) (Some "red")) completed_game
                completed_session) as (g' & Hg' & _ & Hcolors & Hteam).
    by exists g'.
  - destruct (Hcreate completed "b" 50%Z "L" [] board
                (snapshot (replicate 25 false) (Some "red")) "red")
      as (g' & Hg' & _ & Hcolors & Hteam).
    + vm_compute. reflexivity.
    + reflexivity.
    + discriminate.
    + by exists g'.
Defined.

(** C9: two snapshots merged into the completed game, in either order or
    at once. *)
Lemma merge_convergence_witness :
  ∃ merged,
    merge completed_game
      (snapshot (zip_with orb (replicate 25 false) ([false; false; true] ++ replicate 22 false))
         None) = Some merged ∧
    merge completed_game (snapshot (replicate 25 false) None)
      ≫= (λ g, merge g (snapshot ([false; false; true] ++ replicate 22 false) None))
      = Some merged ∧
    merge completed_game (snapshot ([false; false; true] ++ replicate 22 false) None)
      ≫= (λ g, merge g (snapshot (replicate 25 false) None))
      = Some merged.
Proof.
  apply (merge_convergence completed_game (replicate 25 false)
           ([false; false; true] ++ replicate 22 false) None None None);
    reflexivity.
Defined.

(** C10: the only player of the fresh game disconnects at time 99. *)
Lemma disconnect_detaches_presence_witness :
  ∃ g', step created (from_socket "a" 99 disconnect)
          = ({| activeGames := <["K" := g']> (activeGames created);
                currentGames := delete "a" (currentGames created) |},
             [socket_leave "a" "K"]) ∧
        players g' = ∅ ∧ revealed g' = revealed fresh_game ∧
        lastActivity g' = 99%Z.
Proof.
  destruct (disconnect_detaches_presence created "a" 99 "K" fresh_game)
    as (Hdetach & _ & _).
  - vm_compute. reflexivity.
  - exact created_session.
  - destruct Hdetach
      as (g' & Hstep & Hplayers & _ & _ & Hrev & _ & _ & _ & _ & Hnow);
      [discriminate|].
    exists g'. split_and!; [done| |done|].
    + rewrite Hplayers. vm_compute. reflexivity.
    + rewrite Hnow. vm_compute. reflexivity.
Defined.

(** * Further properties of the handlers *)

(** ** Joining *)


(** X1. A JOIN_GAME for a key that has no session, sent without [words] or
    without [colors], creates no session and attaches nobody: it does
    exactly what a disconnect of the caller does (the caller leaves its
    current session), and nothing is broadcast. *)
Theorem join_without_board_only_leaves (s : Server) (socket : string) (now : Z)
    (gameKey : string) (ws cs : option (list string)) (gameState : option GameState) :
  activeGames s !! gameKey = None →
  ws = None ∨ cs = None →
  step s (from_socket socket now (JOIN_GAME gameKey ws cs gameState))
    = step s (from_socket socket now disconnect) ∧
  activeGames (step s (from_socket socket now (JOIN_GAME gameKey ws cs gameState))).1
    !! gameKey = None.
Proof.
  intros Hnone Hboard. simpl. unfold on_disconnect.
  apply (leaveCurrentGame_lookup_None socket now) in Hnone.
  rewrite on_JOIN_GAME_absent by done. rewrite app_nil_r. split; [|done].
  by destruct (leaveCurrentGame socket now s).
Qed.


Lemma createNewGameState_players now gameKey ws cs savedState :
  players (createNewGameState now gameKey ws cs savedState) = ∅.
Proof.
  unfold createNewGameState.
  match goal with |- context [calculateDerivedState ?x] =>
    destruct (calculateDerivedState_frame x) as (_ & _ & _ & _ & _ & ->) end.
  by destruct savedState.
Qed.


(** X3. A connection that has joined nothing sends a JOIN_GAME with a board
    and a snapshot that has no [revealed], for a key without session: the
    session is created and stored with no player, the statistics are told,
    and then the merge throws a TypeError, so the caller is not attached and
    nothing is broadcast. While the statistics are not loaded the outcome is
    the same, the exception being thrown by [gameStats.addGame] already. *)
Theorem join_create_without_flags_throws (s : Server) (socket : string) (now : Z)
    (gameKey : string) (w c : list string) (gs : GameState) :
  currentGames s !! socket = None →
  activeGames s !! gameKey = None →
  gs_revealed gs = None →
  ∃ g, step s (from_socket socket now (JOIN_GAME gameKey (Some w) (Some c) (Some gs)))
         = ({| activeGames := <[gameKey := g]> (activeGames s);
               currentGames := currentGames s |},
            [stats_addGame gameKey; uncaught_TypeError]) ∧
       words g = w ∧ colors g = c ∧ revealed g = JsArray.fill 25 false ∧
       players g = ∅ ∧ derived_ok g ∧
       step s (from_socket_early socket now
                 (JOIN_GAME gameKey (Some w) (Some c) (Some gs)))
         = ({| activeGames := <[gameKey := g]> (activeGames s);
               currentGames := currentGames s |},
            [stats_addGame gameKey; uncaught_TypeError]).
Proof.
  intros Hsocket Hnone Hflags. simpl.
  assert (leaveCurrentGame socket now s = (s, [])) as Hleave.
  { unfold leaveCurrentGame. by rewrite Hsocket. }
  assert (activeGames (leaveCurrentGame socket now s).1 !! gameKey = None) as Hnone'
    by by rewrite Hleave.
  rewrite (on_JOIN_GAME_create _ _ _ _ _ _ _ Hnone').
  rewrite (on_JOIN_GAME_create_early _ _ _ _ _ _ _ Hnone'). cbv zeta.
  rewrite Hleave. cbn [fst snd].
  set (g := createNewGameState now gameKey (Some w) (Some c) (Some gs)).
  assert (words g = w ∧ colors g = c ∧ revealed g = JsArray.fill 25 false ∧
          players g = ∅) as (Hw & Hc & Hr & Hp).
  { unfold g, createNewGameState.
    match goal with |- context [calculateDerivedState ?x] =>
      destruct (calculateDerivedState_frame x) as (-> & -> & -> & _ & _ & ->) end.
    simpl. by rewrite Hflags. }
  assert (join_merge (Some gs) g = None) as ->.
  { unfold join_merge, mergeGameStates, JsArray.map. rewrite Hr. simpl.
    unfold or_incoming. by rewrite Hflags. }
  exists g. split_and!; try done; apply createNewGameState_ok.
Qed.

(** ** Revealing *)

(** X4. Sending the same REVEAL_CARD again right after it was handled,
    whatever the key, the index (in range or not) and the times, is a no-op:
    the server state is unchanged and nothing is emitted. *)
Theorem reveal_twice_is_noop (s : Server) (socket : string) (now now' : Z)
    (gameKey : string) (cardIndex : Z) :
  let s' := (step s (from_socket socket now (REVEAL_CARD gameKey cardIndex))).1 in
  step s' (from_socket socket now' (REVEAL_CARD gameKey cardIndex)) = (s', []).
Proof.
  cbv zeta. simpl.
  destruct (decide (currentGames s !! socket = Some gameKey)) as [Hc|Hc].
  - destruct (activeGames s !! gameKey) as [g|] eqn:Hg.
    + destruct (JsArray.get (revealed g) cardIndex) eqn:Hr.
      * rewrite (on_REVEAL_CARD_ignored _ now) by (right; right; by exists g).
        apply on_REVEAL_CARD_ignored. right. right. by exists g.
      * rewrite (on_REVEAL_CARD_applied _ _ _ _ _ g Hc Hg Hr). cbn [fst].
        apply on_REVEAL_CARD_ignored. right. right.
        exists (reveal_card now cardIndex g).
        split; [apply lookup_insert_eq|].
        destruct (reveal_card_frame now cardIndex g) as (_ & _ & -> & _).
        apply get_set_true.
    + rewrite (on_REVEAL_CARD_ignored _ now) by (right; by left).
      apply on_REVEAL_CARD_ignored. right. by left.
  - rewrite (on_REVEAL_CARD_ignored _ now) by by left.
    apply on_REVEAL_CARD_ignored. by left.
Qed.

(** A reveal changes the flags at one place only. *)
Lemma unrevealed_set_true (color : string) (colors : list string) (r : JsArray.t)
    (k : Z) (i : nat) :
  JsArray.is_index k = true → Z.to_nat k = i → i < length colors →
  JsArray.at_index r i = false →
  length (unrevealed color colors r)
  = length (unrevealed color colors (JsArray.set_true r k))
    + (if decide (colors !! i = Some color) then 1 else 0).
Proof.
  intros Hk Hi Hlt Hr. unfold unrevealed.
  replace (length colors) with (i + (1 + (length colors - S i))) by lia.
  rewrite !seq_app, !filter_app, !length_app. simpl seq.
  rewrite !filter_cons, !filter_nil.
  assert (JsArray.at_index (JsArray.set_true r k) i = true) as Hset.
  { apply at_index_true. unfold JsArray.set_true. rewrite Hk. simpl.
    rewrite Hi. apply lookup_store_eq. }
  rewrite (decide_False (P := _ ∧ JsArray.at_index (JsArray.set_true r k) (0 + i) = false))
    by (rewrite Nat.add_0_l, Hset; by intros [_ ?]).
  rewrite (filter_ext_in
    (λ j, colors !! j = Some color ∧ JsArray.at_index r j = false)
    (λ j, colors !! j = Some color ∧ JsArray.at_index (JsArray.set_true r k) j = false)
    (seq 0 i)).
  2:{ intros j Hj%elem_of_seq.
      rewrite at_index_set_true_other; [done|]. intros _. lia. }
  rewrite (filter_ext_in
    (λ j, colors !! j = Some color ∧ JsArray.at_index r j = false)
    (λ j, colors !! j = Some color ∧ JsArray.at_index (JsArray.set_true r k) j = false)
    (seq (0 + i + 1) (length colors - S i))).
  2:{ intros j Hj%elem_of_seq.
      rewrite at_index_set_true_other; [done|]. intros _. lia. }
  rewrite Nat.add_0_l.
  destruct (decide (colors !! i = Some color)) as [Hc|Hc].
  - rewrite decide_True by done. simpl. lia.
  - rewrite decide_False by (by intros [? _]). simpl. lia.
Qed.

Lemma derived_ok_counts (g : Game) :
  derived_ok g →
  blue (remainingCards g) = length (unrevealed "blue" (colors g) (revealed g)) ∧
  red (remainingCards g) = length (unrevealed "red" (colors g) (revealed g)).
Proof.
  unfold derived_ok, derive. cbv zeta. intros [= -> _ _]. simpl.
  by rewrite !reduce_unrevealed.
Qed.

(** X9. When the attached socket reveals an unrevealed card of the board in
    a session whose stored counts are those of its flags, the remaining
    count of blue drops by one if the card is blue and the remaining count
    of red drops by one if it is red; in every other case the counts are as
    before. *)
Theorem reveal_lowers_the_count (s : Server) (socket : string) (now : Z)
    (gameKey : string) (cardIndex : Z) (g : Game) (c : string) :
  currentGames s !! socket = Some gameKey →
  activeGames s !! gameKey = Some g →
  derived_ok g →
  nth_key (colors g) cardIndex = Some c →
  JsArray.get (revealed g) cardIndex = false →
  ∃ g', activeGames (step s (from_socket socket now (REVEAL_CARD gameKey cardIndex))).1
          !! gameKey = Some g' ∧
        blue (remainingCards g)
          = blue (remainingCards g') + (if decide (c = "blue") then 1 else 0) ∧
        red (remainingCards g)
          = red (remainingCards g') + (if decide (c = "red") then 1 else 0).
Proof.
  intros Hc Hg Hok Hcol Hr. simpl.
  rewrite (on_REVEAL_CARD_applied _ _ _ _ _ g Hc Hg Hr). cbn [fst activeGames].
  rewrite lookup_insert_eq. eexists. split; [done|].
  assert (derived_ok (reveal_card now cardIndex g)) as Hok'
    by apply calculateDerivedState_ok.
  destruct (derived_ok_counts _ Hok) as [-> ->].
  destruct (derived_ok_counts _ Hok') as [-> ->].
  destruct (reveal_card_frame now cardIndex g) as (_ & -> & -> & _).
  unfold nth_key in Hcol. unfold JsArray.get in Hr.
  destruct (JsArray.is_index cardIndex) eqn:Hk; [|done].
  pose proof (lookup_lt_Some _ _ _ Hcol) as Hlt.
  split.
  - rewrite (unrevealed_set_true "blue" (colors g) (revealed g) cardIndex
               (Z.to_nat cardIndex) Hk eq_refl Hlt Hr).
    rewrite Hcol. f_equal. apply decide_ext. naive_solver.
  - rewrite (unrevealed_set_true "red" (colors g) (revealed g) cardIndex
               (Z.to_nat cardIndex) Hk eq_refl Hlt Hr).
    rewrite Hcol. f_equal. apply decide_ext. naive_solver.
Qed.

(** ** Completed games *)

Lemma length_filter_impl {A : Type} (P Q : A → Prop)
    `{!∀ x, Decision (P x), !∀ x, Decision (Q x)} (l : list A) :
  (∀ x, Q x → P x) → (length (filter Q l) ≤ length (filter P l))%nat.
Proof.
  intros Himpl. induction l as [|x l IH]; [done|].
  rewrite !filter_cons.
  destruct (decide (Q x)) as [HQ|HQ].
  - rewrite decide_True by auto. simpl. lia.
  - destruct (decide (P x)); simpl; lia.
Qed.

Lemma unrevealed_mono (color : string) (colors : list string) (r r' : JsArray.t) :
  (∀ i, JsArray.at_index r i = true → JsArray.at_index r' i = true) →
  (length (unrevealed color colors r') ≤ length (unrevealed color colors r))%nat.
Proof.
  intros Hkeeps. apply length_filter_impl. intros i [Hc Hr']. split; [done|].
  destruct (JsArray.at_index r i) eqn:Hr; [|done].
  apply Hkeeps in Hr. congruence.
Qed.

(** Once over, [derive] stays over when flags are added. *)
Lemma derive_over_mono (colors : list string) (r r' : JsArray.t) :
  (∀ i, JsArray.at_index r i = true → JsArray.at_index r' i = true) →
  (derive colors r).1.2 = true → (derive colors r').1.2 = true.
Proof.
  intros Hkeeps. unfold derive. cbv zeta. simpl.
  rewrite !reduce_unrevealed, !orb_true_iff, !bool_decide_eq_true.
  rewrite !some_black_revealed.
  pose proof (unrevealed_mono "blue" colors r r' Hkeeps).
  pose proof (unrevealed_mono "red" colors r r' Hkeeps).
  intros [[(i & Hi & Hr)|Hblue]|Hred].
  - left. left. exists i. auto.
  - left. right. lia.
  - right. lia.
Qed.

(** A game that is over has a winner. *)
Lemma derive_over_winner (colors : list string) (r : JsArray.t) :
  (derive colors r).1.2 = true → is_Some (derive colors r).2.
Proof.
  unfold derive. cbv zeta. simpl.
  destruct (some _ colors); [by eexists|].
  do 2 (case_bool_decide; [by eexists|]). done.
Qed.

Lemma derived_ok_over (g : Game) :
  derived_ok g →
  gameOver g = (derive (colors g) (revealed g)).1.2 ∧
  winner g = (derive (colors g) (revealed g)).2.
Proof. unfold derived_ok. by intros <-. Qed.

(** What an input that keeps the sessions does to one of them. *)
Lemma dispatch_keeps_board loaded socket now m s k g :
  keeps_sessions (from_socket socket now m) → activeGames s !! k = Some g →
  ∃ g', activeGames (dispatch loaded socket now m s).1 !! k = Some g' ∧
        colors g' = colors g ∧ keeps_revealed g g'.
Proof.
  intros Hi Hk.
  destruct m as [gameKey ws cs gameState|gameKey ws cs|gameKey cardIndex|];
    simpl in *; try done.
  - destruct (decide (k = gameKey)) as [->|Hne].
    + destruct (on_JOIN_GAME_live loaded socket now gameKey ws cs gameState s g Hk)
        as (g' & Hg' & _ & Hc & _ & Hkeeps).
      by exists g'.
    + rewrite on_JOIN_GAME_lookup_ne by done.
      destruct (leaveCurrentGame_same_play socket now s k g Hk)
        as (g1 & Hk1 & (_ & Hc & Hrev & _)).
      exists g1. split_and!; [done|done|]. intros j. by rewrite Hrev.
  - destruct (decide (k = gameKey)) as [->|Hne].
    + destruct (decide (currentGames s !! socket = Some gameKey)) as [Hc|Hc].
      * destruct (JsArray.get (revealed g) cardIndex) eqn:Hr.
        -- rewrite on_REVEAL_CARD_ignored by (right; right; by exists g).
           exists g. split_and!; [done|done|by intros ?].
        -- rewrite (on_REVEAL_CARD_applied_state _ _ _ _ _ _ g Hc Hk Hr).
           cbn [fst activeGames]. rewrite lookup_insert_eq.
           eexists. split; [done|].
           destruct (reveal_card_frame now cardIndex g) as (_ & -> & Hrev & _).
           split; [done|]. intros j Hj. rewrite Hrev.
           by apply at_index_set_true_keeps.
      * rewrite on_REVEAL_CARD_ignored by by left.
        exists g. split_and!; [done|done|by intros ?].
    + rewrite on_REVEAL_CARD_lookup_ne by done.
      exists g. split_and!; [done|done|by intros ?].
  - destruct (leaveCurrentGame_same_play socket now s k g Hk)
      as (g1 & Hk1 & (_ & Hc & Hrev & _)).
    exists g1. split_and!; [done|done|]. intros j. by rewrite Hrev.
Qed.

Lemma step_keeps_board s i k g :
  keeps_sessions i → activeGames s !! k = Some g →
  ∃ g', activeGames (step s i).1 !! k = Some g' ∧
        colors g' = colors g ∧ keeps_revealed g g'.
Proof.
  destruct i as [socket now m|socket now m|now]; simpl; [| |done].
  - apply dispatch_keeps_board.
  - intros Hi. apply dispatch_keeps_board. by destruct m.
Qed.

Lemma run_keeps_board inputs : ∀ s k g,
  Forall keeps_sessions inputs → activeGames s !! k = Some g →
  ∃ g', activeGames (run s inputs) !! k = Some g' ∧
        colors g' = colors g ∧ keeps_revealed g g'.
Proof.
  induction inputs as [|i inputs IH]; intros s k g Hall Hk.
  - exists g. split_and!; [done|done|by intros ?].
  - apply Forall_cons in Hall as [Hi Hall].
    destruct (step_keeps_board s i k g Hi Hk) as (g1 & Hk1 & Hc1 & H1).
    destruct (IH _ k g1 Hall Hk1) as (g2 & Hk2 & Hc2 & H2).
    exists g2. split_and!; [done|congruence|]. intros j Hj. by apply H2, H1.
Qed.

(** X7. A completed game stays completed: from a server state without drift,
    along every sequence of joins, reveals and disconnects (by any sockets,
    on any keys), a session whose [gameOver] is true keeps [gameOver] true
    and has a winner. *)
Theorem game_over_is_permanent (s : Server) (inputs : list input)
    (gameKey : string) (g : Game) :
  no_drift s →
  Forall keeps_sessions inputs →
  activeGames s !! gameKey = Some g →
  gameOver g = true →
  ∃ g', activeGames (run s inputs) !! gameKey = Some g' ∧
        gameOver g' = true ∧ is_Some (winner g').
Proof.
  intros Hs Hall Hg Hover.
  destruct (run_keeps_board inputs s gameKey g Hall Hg) as (g' & Hg' & Hc & Hkeeps).
  exists g'. split; [done|].
  destruct (derived_ok_over g (Hs _ _ Hg)) as [Hover_g _].
  destruct (derived_ok_over g' (run_no_drift inputs s Hs _ _ Hg')) as [-> ->].
  rewrite Hover_g in Hover. rewrite Hc.
  pose proof (derive_over_mono _ _ _ Hkeeps Hover) as Hover'.
  split; [done|]. by apply derive_over_winner.
Qed.

(** X8. The statistics are told of a completion at every reveal that leaves
    the session over, not only at the first: when the attached socket
    reveals an unrevealed card in a session that is already over (and
    without drift), the handler calls [completeGame] again before it
    broadcasts the state. While the statistics are not loaded that call
    throws and the state is not broadcast. *)
Theorem completion_is_notified_again (s : Server) (socket : string) (now : Z)
    (gameKey : string) (cardIndex : Z) (g : Game) :
  currentGames s !! socket = Some gameKey →
  activeGames s !! gameKey = Some g →
  derived_ok g →
  gameOver g = true →
  JsArray.get (revealed g) cardIndex = false →
  ∃ g', (step s (from_socket socket now (REVEAL_CARD gameKey cardIndex))).2
          = [stats_completeGame gameKey; emit_GAME_STATE gameKey g'] ∧
        gameOver g' = true ∧
        (step s (from_socket_early socket now (REVEAL_CARD gameKey cardIndex))).2
          = [stats_completeGame gameKey; uncaught_TypeError].
Proof.
  intros Hc Hg Hok Hover Hr. simpl.
  rewrite (on_REVEAL_CARD_applied _ _ _ _ _ g Hc Hg Hr).
  rewrite (on_REVEAL_CARD_applied_early _ _ _ _ _ g Hc Hg Hr). cbn [snd].
  assert (derived_ok (reveal_card now cardIndex g)) as Hok'
    by apply calculateDerivedState_ok.
  destruct (derived_ok_over _ Hok) as [Hover_g _]. rewrite Hover_g in Hover.
  destruct (derived_ok_over _ Hok') as [Hover' Hwin'].
  destruct (reveal_card_frame now cardIndex g) as (_ & Hcolors & Hrev & _).
  rewrite Hcolors, Hrev in Hover', Hwin'.
  assert ((derive (colors g) (JsArray.set_true (revealed g) cardIndex)).1.2 = true)
    as Hstill.
  { eapply derive_over_mono; [|done]. intros j. apply at_index_set_true_keeps. }
  exists (reveal_card now cardIndex g).
  rewrite Hover', Hstill, Hwin'.
  rewrite bool_decide_eq_true_2 by by apply derive_over_winner.
  done.
Qed.

Lemma filter_none {A : Type} (P : A → Prop) `{!∀ x, Decision (P x)} (l : list A) :
  (∀ x, x ∈ l → ¬ P x) → filter P l = [].
Proof.
  induction l as [|x l IH]; intros Hnone; [done|].
  rewrite filter_cons_False by (apply Hnone; by left).
  apply IH. intros y Hy. apply Hnone. by right.
Qed.

Lemma at_index_fill_false (n i : nat) : JsArray.at_index (JsArray.fill n false) i = false.
Proof.
  unfold JsArray.at_index, JsArray.fill. simpl.
  destruct (replicate n (JsArray.Elem false) !! i) as [sl|] eqn:Hi; [|done].
  by apply lookup_replicate in Hi as [-> _].
Qed.

Lemma derive_no_blue (colors : list string) (r : JsArray.t) :
  unrevealed "blue" colors r = [] → ¬ assassin_revealed colors r →
  (derive colors r).1.2 = true ∧ (derive colors r).2 = Some "blue".
Proof.
  intros Hnone Hblack. unfold derive. cbv zeta. simpl blue. simpl red.
  rewrite !reduce_unrevealed, Hnone.
  destruct (some _ colors) eqn:Hsome; [|done].
  by apply some_black_revealed in Hsome.
Qed.

(** X10. A NEW_GAME whose board has no blue card (in particular a NEW_GAME
    sent without [colors], or with an empty array) creates a session that
    is over from the start, with blue as its winner. *)
Theorem new_game_without_blue_is_over (s : Server) (socket : string) (now : Z)
    (gameKey : string) (ws cs : option (list string)) :
  "blue" ∉ default [] cs →
  ∃ g', activeGames (step s (from_socket socket now (NEW_GAME gameKey ws cs))).1
          !! gameKey = Some g' ∧
        colors g' = default [] cs ∧
        blue (remainingCards g') = 0 ∧ gameOver g' = true ∧ winner g' = Some "blue".
Proof.
  intros Hblue. simpl. unfold on_NEW_GAME.
  destruct (leaveCurrentGame socket now s) as [s1 departed].
  destruct (createNewGameState_fresh now gameKey ws cs) as (_ & Hc & Hr & _).
  pose proof (createNewGameState_ok now gameKey ws cs None) as Hok.
  set (g0 := createNewGameState now gameKey ws cs None) in *.
  exists (set_players ({[socket]} ∪ players g0) g0).
  split; [apply lookup_insert_eq|]. split; [done|].
  change (blue (remainingCards g0) = 0 ∧ gameOver g0 = true ∧ winner g0 = Some "blue").
  destruct (derived_ok_counts _ Hok) as [Hcount _].
  destruct (derived_ok_over _ Hok) as [Hover Hwin].
  assert (unrevealed "blue" (colors g0) (revealed g0) = []) as Hnone.
  { unfold unrevealed. apply filter_none.
    intros i _ [Hi _]. apply Hblue. rewrite <-Hc.
    by eapply list_elem_of_lookup_2. }
  rewrite Hnone in Hcount. simpl in Hcount. split; [done|].
  rewrite Hover, Hwin. apply derive_no_blue; [done|].
  intros (i & _ & Hi). rewrite Hr, at_index_fill_false in Hi. done.
Qed.

(** ** The hourly sweep *)

(** X5. The sweep removes exactly the sessions whose [lastActivity] is more
    than 3600000 ms before the current time, whether or not players are
    attached; a session whose [lastActivity] is exactly one hour old stays.
    The sessions that stay are unchanged, every removed key is reported to
    the statistics once, and the [currentGame] of no connection is touched. *)
Theorem sweep_removes_idle_sessions (s : Server) (now : Z) :
  let r := step s (sweep now) in
  (∀ k g, activeGames r.1 !! k = Some g ↔
          activeGames s !! k = Some g ∧ (now - 3600000 ≤ lastActivity g)%Z) ∧
  (∀ k, stats_removeGame k ∈ r.2 ↔
        ∃ g, activeGames s !! k = Some g ∧ (lastActivity g < now - 3600000)%Z) ∧
  length r.2 + size (activeGames r.1) = size (activeGames s) ∧
  currentGames r.1 = currentGames s.
Proof.
  cbv zeta. simpl. unfold cleanup. simpl. split_and!; [| | |done].
  - intros k g. rewrite map_lookup_filter_Some. simpl.
    split; intros [? ?]; split; try done; lia.
  - intros k. rewrite list_elem_of_fmap. split.
    + intros ([k' g] & [= ->] & Hin). exists g.
      apply elem_of_map_to_list in Hin.
      by apply map_lookup_filter_Some in Hin.
    + intros (g & Hg & Hlt). exists (k, g). split; [done|].
      apply elem_of_map_to_list. by apply map_lookup_filter_Some.
  - rewrite length_fmap, length_map_to_list.
    rewrite <-(map_filter_union_complement
      (λ kg : string * Game, (lastActivity kg.2 < now - 3600000)%Z) (activeGames s)) at 3.
    rewrite map_size_disj_union by apply map_disjoint_filter_complement.
    done.
Qed.

(** X6. A session that the sweep removes is lost to the players attached to
    it: their [currentGame] still names the key, but a REVEAL_CARD they send
    is ignored, and a JOIN_GAME for the key without a board finds no
    session. *)
Theorem swept_session_is_lost (s : Server) (socket : string) (now now' : Z)
    (gameKey : string) (g : Game) (cardIndex : Z) (gameState : option GameState) :
  activeGames s !! gameKey = Some g →
  (lastActivity g < now - 3600000)%Z →
  let s' := (step s (sweep now)).1 in
  activeGames s' !! gameKey = None ∧
  currentGames s' !! socket = currentGames s !! socket ∧
  step s' (from_socket socket now' (REVEAL_CARD gameKey cardIndex)) = (s', []) ∧
  activeGames (step s' (from_socket socket now' (JOIN_GAME gameKey None None gameState))).1
    !! gameKey = None.
Proof.
  intros Hg Hidle. cbv zeta. simpl.
  assert (activeGames (cleanup now s).1 !! gameKey = None) as Hnone.
  { unfold cleanup. simpl. apply map_lookup_filter_None. right.
    intros g' Hg' Hkeep. simpl in Hkeep. simplify_eq. lia. }
  split_and!; [done|done| |].
  - apply on_REVEAL_CARD_ignored. right. by left.
  - rewrite on_JOIN_GAME_absent; [|by apply leaveCurrentGame_lookup_None|by left].
    by apply leaveCurrentGame_lookup_None.
Qed.

(** ** Presence *)

Lemma detach_players socket now g :
  players (detach socket now g) = players g ∖ {[socket]}.
Proof. unfold detach. by case_bool_decide. Qed.

(** After [leaveCurrentGame] the socket is a player of no session with a
    non-empty key. *)
Lemma leaveCurrentGame_presence socket now s :
  presence_ok s →
  presence_ok (leaveCurrentGame socket now s).1 ∧
  absent_from_sessions socket (leaveCurrentGame socket now s).1.
Proof.
  intros Hs. unfold leaveCurrentGame.
  destruct (currentGames s !! socket) as [cg|] eqn:Hcg.
  - case_bool_decide as Hempty.
    + split; [done|]. intros k g Hk Hne Hin.
      specialize (Hs k g socket Hk Hin Hne). congruence.
    + simpl.
      assert (absent_from_sessions socket
        {| activeGames :=
             match activeGames s !! cg with
             | Some game => <[cg := detach socket now game]> (activeGames s)
             | None => activeGames s
             end;
           currentGames := delete socket (currentGames s) |}) as Habsent.
      { intros k g' Hk Hne Hin. cbn [activeGames] in Hk.
        destruct (activeGames s !! cg) as [g|] eqn:Hg.
        - destruct (decide (cg = k)) as [->|Hneq].
          + rewrite lookup_insert_eq in Hk.
            change (Some (detach socket now g) = Some g') in Hk.
            change (Some (detach socket now g) = Some g') in Hk.
           assert (g' = detach socket now g) as Hg' by congruence.
            rewrite Hg', detach_players in Hin.
            apply elem_of_difference in Hin as [_ Hnot].
            apply Hnot. by apply elem_of_singleton.
          + rewrite lookup_insert_ne in Hk by done.
            specialize (Hs k g' socket Hk Hin Hne). congruence.
        - specialize (Hs k g' socket Hk Hin Hne). congruence. }
      split; [|done].
      intros k g' sock Hk Hin Hne.
      destruct (decide (sock = socket)) as [->|Hsock].
      { by destruct (Habsent k g' Hk Hne). }
      cbn [currentGames]. rewrite lookup_delete_ne by done. cbn [activeGames] in Hk.
      destruct (activeGames s !! cg) as [g|] eqn:Hg.
      * destruct (decide (cg = k)) as [->|Hneq].
        -- rewrite lookup_insert_eq in Hk.
           change (Some (detach socket now g) = Some g') in Hk.
           assert (g' = detach socket now g) as Hg' by congruence.
           rewrite Hg', detach_players in Hin.
           apply elem_of_difference in Hin as [Hin _].
           by apply (Hs k g sock Hg).
        -- rewrite lookup_insert_ne in Hk by done. by apply (Hs k g').
      * by apply (Hs k g').
  - split; [done|]. intros k g Hk Hne Hin.
    specialize (Hs k g socket Hk Hin Hne). congruence.
Qed.

(** Storing under [gameKey] a session whose players are the socket and
    players of the session that was there, and attaching the socket. *)
Lemma presence_attach s1 socket gameKey g' (m : gmap string Game) :
  presence_ok s1 → absent_from_sessions socket s1 →
  (∀ k, k ≠ gameKey → m !! k = activeGames s1 !! k) →
  (∀ sock, sock ∈ players g' → sock = socket ∨
           ∃ g, activeGames s1 !! gameKey = Some g ∧ sock ∈ players g) →
  presence_ok {| activeGames := <[gameKey := g']> m;
                 currentGames := <[socket := gameKey]> (currentGames s1) |}.
Proof.
  intros Hs Habsent Hm Hplayers k g sock Hk Hin Hne. simpl in *.
  destruct (decide (gameKey = k)) as [->|Hneq].
  - rewrite lookup_insert_eq in Hk. simplify_eq.
    destruct (Hplayers sock Hin) as [->|(g0 & Hg0 & Hin0)].
    + apply lookup_insert_eq.
    + destruct (decide (socket = sock)) as [->|Hsock]; [apply lookup_insert_eq|].
      rewrite lookup_insert_ne by done. by apply (Hs k g0).
  - rewrite lookup_insert_ne in Hk by done. rewrite Hm in Hk by done.
    destruct (decide (socket = sock)) as [->|Hsock].
    + by destruct (Habsent k g Hk Hne).
    + rewrite lookup_insert_ne by done. by apply (Hs k g).
Qed.

(** Storing a session without players, or with the players it had. *)
Lemma presence_store s1 gameKey g' :
  presence_ok s1 →
  (∀ sock, sock ∈ players g' →
           ∃ g, activeGames s1 !! gameKey = Some g ∧ sock ∈ players g) →
  presence_ok {| activeGames := <[gameKey := g']> (activeGames s1);
                 currentGames := currentGames s1 |}.
Proof.
  intros Hs Hplayers k g sock Hk Hin Hne. simpl in *.
  destruct (decide (gameKey = k)) as [->|Hneq].
  - rewrite lookup_insert_eq in Hk. simplify_eq.
    destruct (Hplayers sock Hin) as (g0 & Hg0 & Hin0). by apply (Hs k g0).
  - rewrite lookup_insert_ne in Hk by done. by apply (Hs k g).
Qed.

Lemma on_JOIN_GAME_presence loaded socket now gameKey ws cs gameState s :
  presence_ok s →
  presence_ok (on_JOIN_GAME loaded socket now gameKey ws cs gameState s).1.
Proof.
  intros Hs. destruct (leaveCurrentGame_presence socket now s Hs) as [Hs1 Habsent].
  destruct (activeGames (leaveCurrentGame socket now s).1 !! gameKey) as [g|] eqn:Hk.
  - rewrite (on_JOIN_GAME_existing _ _ _ _ _ _ _ g Hk). cbv zeta.
    destruct (join_merge gameState g) as [merged|] eqn:Hm; [|done]. cbn [fst].
    apply presence_attach; [done|done|done|].
    destruct (join_merge_frame _ _ _ Hm) as (_ & _ & _ & _ & Hp).
    intros sock. unfold attach. simpl. rewrite Hp.
    intros [->%elem_of_singleton|Hin]%elem_of_union; [by left|].
    right. by exists g.
  - destruct ws as [w|]; [destruct cs as [c|]|].
    + pose proof (createNewGameState_players now gameKey (Some w) (Some c) gameState)
        as Hg.
      destruct loaded.
      * rewrite (on_JOIN_GAME_create _ _ _ _ _ _ _ Hk). cbv zeta.
        set (g := createNewGameState now gameKey (Some w) (Some c) gameState) in *.
        destruct (join_merge gameState g) as [merged|] eqn:Hm; cbn [fst].
        -- apply presence_attach; [done|done| |].
           ++ intros k Hne. by rewrite lookup_insert_ne.
           ++ destruct (join_merge_frame _ _ _ Hm) as (_ & _ & _ & _ & Hp).
              intros sock. unfold attach. simpl. rewrite Hp, Hg.
              intros [->%elem_of_singleton|Hin]%elem_of_union; [by left|].
              by apply elem_of_empty in Hin.
        -- apply presence_store; [done|].
           intros sock Hin. rewrite Hg in Hin. by apply elem_of_empty in Hin.
      * rewrite (on_JOIN_GAME_create_early _ _ _ _ _ _ _ Hk). cbv zeta. cbn [fst].
        apply presence_store; [done|].
        intros sock Hin. rewrite Hg in Hin. by apply elem_of_empty in Hin.
    + rewrite on_JOIN_GAME_absent; auto.
    + rewrite on_JOIN_GAME_absent; auto.
Qed.

Lemma on_NEW_GAME_presence loaded socket now gameKey ws cs s :
  presence_ok s → presence_ok (on_NEW_GAME loaded socket now gameKey ws cs s).1.
Proof.
  intros Hs. destruct (leaveCurrentGame_presence socket now s Hs) as [Hs1 Habsent].
  unfold on_NEW_GAME. destruct (leaveCurrentGame socket now s) as [s1 departed].
  cbn [fst] in *.
  destruct (createNewGameState_fresh now gameKey ws cs) as (_ & _ & _ & _ & _ & Hp).
  destruct loaded; cbn [fst].
  - apply presence_attach; [done|done|done|].
    intros sock Hin.
    change (sock ∈ {[socket]} ∪ players (createNewGameState now gameKey ws cs None))
      in Hin.
    rewrite Hp in Hin.
    apply elem_of_union in Hin as [->%elem_of_singleton|Hin]; [by left|].
    by apply elem_of_empty in Hin.
  - apply presence_store; [done|].
    intros sock Hin. rewrite Hp in Hin. by apply elem_of_empty in Hin.
Qed.

Lemma on_REVEAL_CARD_presence loaded socket now gameKey cardIndex s :
  presence_ok s → presence_ok (on_REVEAL_CARD loaded socket now gameKey cardIndex s).1.
Proof.
  intros Hs.
  destruct (decide (currentGames s !! socket = Some gameKey)) as [Hc|Hc];
    [|by rewrite on_REVEAL_CARD_ignored by by left].
  destruct (activeGames s !! gameKey) as [g|] eqn:Hg;
    [|by rewrite on_REVEAL_CARD_ignored by (right; by left)].
  destruct (JsArray.get (revealed g) cardIndex) eqn:Hr;
    [by rewrite on_REVEAL_CARD_ignored by (right; right; by exists g)|].
  rewrite (on_REVEAL_CARD_applied_state _ _ _ _ _ _ g Hc Hg Hr).
  apply presence_store; [done|].
  destruct (reveal_card_frame now cardIndex g) as (_ & _ & _ & _ & _ & ->).
  intros sock Hin. by exists g.
Qed.

Lemma dispatch_presence loaded socket now m s :
  presence_ok s → presence_ok (dispatch loaded socket now m s).1.
Proof.
  destruct m as [gameKey ws cs gameState|gameKey ws cs|gameKey cardIndex|]; simpl.
  - apply on_JOIN_GAME_presence.
  - apply on_NEW_GAME_presence.
  - apply on_REVEAL_CARD_presence.
  - intros Hs. by apply leaveCurrentGame_presence.
Qed.

Lemma step_presence s i : presence_ok s → presence_ok (step s i).1.
Proof.
  destruct i as [socket now m|socket now m|now]; simpl.
  - apply dispatch_presence.
  - apply dispatch_presence.
  - intros Hs k g sock [Hk _]%map_lookup_filter_Some. by apply (Hs k g).
Qed.

Lemma run_presence inputs : ∀ s, presence_ok s → presence_ok (run s inputs).
Proof.
  induction inputs as [|i inputs IH]; intros s Hs; [done|].
  apply IH. by apply step_presence.
Qed.

(** X11. Whatever the server has handled since it started, a connection is
    among the players of at most one session with a non-empty key, and that
    key is the connection's [currentGame]. *)
Theorem one_session_per_connection (inputs : list input) (socket k1 k2 : string)
    (g1 g2 : Game) :
  activeGames (run initial inputs) !! k1 = Some g1 → socket ∈ players g1 → k1 ≠ "" →
  activeGames (run initial inputs) !! k2 = Some g2 → socket ∈ players g2 → k2 ≠ "" →
  k1 = k2 ∧ currentGames (run initial inputs) !! socket = Some k1.
Proof.
  intros Hk1 Hin1 Hne1 Hk2 Hin2 Hne2.
  assert (presence_ok (run initial inputs)) as Hok.
  { apply run_presence. intros k g sock Hk.
    unfold initial in Hk. cbn [activeGames] in Hk. by apply lookup_empty_Some in Hk. }
  pose proof (Hok k1 g1 socket Hk1 Hin1 Hne1) as H1.
  pose proof (Hok k2 g2 socket Hk2 Hin2 Hne2) as H2.
  split; [congruence|done].
Qed.

(** X12. The empty key escapes [leaveCurrentGame]: for a connection whose
    [currentGame] is the empty string, a disconnect does nothing at all, and
    no message for another key changes the session stored under the empty
    key, so the connection stays among its players. *)
Theorem empty_key_is_never_left (s : Server) (socket : string) (now : Z) (m : message) :
  currentGames s !! socket = Some "" →
  message_key m ≠ Some "" →
  activeGames (step s (from_socket socket now m)).1 !! "" = activeGames s !! "" ∧
  (m = disconnect → step s (from_socket socket now m) = (s, [])).
Proof.
  intros Hc Hkey.
  assert (leaveCurrentGame socket now s = (s, [])) as Hleave.
  { unfold leaveCurrentGame. by rewrite Hc. }
  destruct m as [gameKey ws cs gameState|gameKey ws cs|gameKey cardIndex|]; simpl in *.
  - split; [|done]. rewrite on_JOIN_GAME_lookup_ne by congruence. by rewrite Hleave.
  - split; [|done]. unfold on_NEW_GAME. rewrite Hleave. simpl.
    rewrite lookup_insert_ne; [done|congruence].
  - split; [|done]. rewrite on_REVEAL_CARD_lookup_ne; [done|congruence].
  - unfold on_disconnect. by rewrite Hleave.
Qed.

(** ** The registry and the statistics' count of active games *)

Lemma stats_balance_app (a b : list event) :
  stats_balance (a ++ b) = (stats_balance a + stats_balance b)%Z.
Proof.
  induction a as [|e a IH]; [done|]. destruct e; simpl; rewrite ?IH; lia.
Qed.

Lemma leaveCurrentGame_size socket now s :
  size (activeGames (leaveCurrentGame socket now s).1) = size (activeGames s) ∧
  stats_balance (leaveCurrentGame socket now s).2 = 0%Z.
Proof.
  unfold leaveCurrentGame.
  destruct (currentGames s !! socket) as [cg|]; [|done].
  case_bool_decide; [done|]. simpl. split; [|done].
  destruct (activeGames s !! cg) as [g|] eqn:Hg; [|done].
  rewrite map_size_insert_Some; [done|by exists g].
Qed.

Lemma leaveCurrentGame_is_Some socket now s k :
  is_Some (activeGames (leaveCurrentGame socket now s).1 !! k)
  ↔ is_Some (activeGames s !! k).
Proof.
  destruct (leaveCurrentGame_lookup socket now s k) as [-> | ->]; [done|].
  by rewrite fmap_is_Some.
Qed.

Lemma dispatch_size_balance loaded socket now m s :
  (Z.of_nat (size (activeGames (dispatch loaded socket now m s).1))
   + replacements s [from_socket socket now m]
   = Z.of_nat (size (activeGames s))
     + stats_balance (dispatch loaded socket now m s).2)%Z.
Proof.
  destruct m as [gameKey ws cs gameState|gameKey ws cs|gameKey cardIndex|]; simpl.
  - destruct (leaveCurrentGame_size socket now s) as [Hsize Hbal].
    destruct (activeGames (leaveCurrentGame socket now s).1 !! gameKey) as [g|] eqn:Hk.
    + rewrite (on_JOIN_GAME_existing _ _ _ _ _ _ _ g Hk). cbv zeta.
      destruct (join_merge gameState g) as [merged|]; cbn [fst snd activeGames].
      * rewrite map_size_insert_Some by (by exists g).
        rewrite !stats_balance_app, Hbal, Hsize. simpl. lia.
      * rewrite !stats_balance_app, Hbal, Hsize. simpl. lia.
    + destruct ws as [w|]; [destruct cs as [c|]|].
      * destruct loaded.
        -- rewrite (on_JOIN_GAME_create _ _ _ _ _ _ _ Hk). cbv zeta.
           destruct (join_merge gameState _) as [merged|]; cbn [fst snd activeGames].
           ++ rewrite map_size_insert_Some by (eexists; apply lookup_insert_eq).
              rewrite map_size_insert_None by done.
              rewrite !stats_balance_app, Hbal, Hsize. simpl. lia.
           ++ rewrite map_size_insert_None by done.
              rewrite !stats_balance_app, Hbal, Hsize. simpl. lia.
        -- rewrite (on_JOIN_GAME_create_early _ _ _ _ _ _ _ Hk). cbv zeta.
           cbn [fst snd activeGames].
           rewrite map_size_insert_None by done.
           rewrite !stats_balance_app, Hbal, Hsize. simpl. lia.
      * rewrite on_JOIN_GAME_absent by auto. cbn [fst snd].
        rewrite !stats_balance_app, Hbal, Hsize. simpl. lia.
      * rewrite on_JOIN_GAME_absent by auto. cbn [fst snd].
        rewrite !stats_balance_app, Hbal, Hsize. simpl. lia.
  - destruct (leaveCurrentGame_size socket now s) as [Hsize Hbal].
    pose proof (leaveCurrentGame_is_Some socket now s gameKey) as Hsome.
    unfold on_NEW_GAME. destruct (leaveCurrentGame socket now s) as [s1 departed].
    destruct loaded; cbn [fst snd activeGames] in *;
      rewrite stats_balance_app, Hbal; simpl stats_balance;
      (destruct (decide (is_Some (activeGames s !! gameKey))) as [Hex|Hex];
       [apply Hsome in Hex as [g Hg];
        rewrite map_size_insert_Some by (by exists g); lia
       |rewrite map_size_insert_None;
          [lia|apply eq_None_not_Some; by rewrite Hsome]]).
  - destruct (decide (currentGames s !! socket = Some gameKey)) as [Hc|Hc];
      [|rewrite on_REVEAL_CARD_ignored by (by left); simpl; lia].
    destruct (activeGames s !! gameKey) as [g|] eqn:Hg;
      [|rewrite on_REVEAL_CARD_ignored by (right; by left); simpl; lia].
    destruct (JsArray.get (revealed g) cardIndex) eqn:Hr;
      [rewrite on_REVEAL_CARD_ignored by (right; right; by exists g); simpl; lia|].
    destruct loaded.
    + rewrite (on_REVEAL_CARD_applied _ _ _ _ _ g Hc Hg Hr). cbn [fst snd activeGames].
      rewrite map_size_insert_Some by (by exists g).
      rewrite stats_balance_app. destruct (_ && _); simpl; lia.
    + rewrite (on_REVEAL_CARD_applied_early _ _ _ _ _ g Hc Hg Hr).
      cbn [fst snd activeGames].
      rewrite map_size_insert_Some by (by exists g).
      destruct (_ && _); simpl; lia.
  - unfold on_disconnect.
    destruct (leaveCurrentGame_size socket now s) as [-> ->]. lia.
Qed.

Lemma step_size_balance s i :
  (Z.of_nat (size (activeGames (step s i).1)) + replacements s [i]
   = Z.of_nat (size (activeGames s)) + stats_balance (step s i).2)%Z.
Proof.
  destruct i as [socket now m|socket now m|now].
  - apply dispatch_size_balance.
  - pose proof (dispatch_size_balance false socket now m s) as Hd.
    simpl in *. by destruct m.
  - simpl. unfold cleanup. cbn [fst snd activeGames].
    set (P := λ kg : string * Game, (lastActivity kg.2 < now - 3600000)%Z).
    assert (∀ l : list (string * Game),
      stats_balance ((λ kg, stats_removeGame kg.1) <$> l) = (- Z.of_nat (length l))%Z)
      as Hremoved.
    { induction l as [|x l IH]; [done|].
      rewrite fmap_cons. cbn [stats_balance]. rewrite IH. cbn [length]. lia. }
    rewrite Hremoved, length_map_to_list.
    assert (size (activeGames s)
            = size (filter P (activeGames s))
              + size (filter (λ kg, ¬ P kg) (activeGames s))) as Hsplit.
    { rewrite <-(map_filter_union_complement P (activeGames s)) at 1.
      apply map_size_disj_union, map_disjoint_filter_complement. }
    rewrite Hsplit. unfold P. lia.
Qed.

Lemma run_size_balance inputs : ∀ s,
  (Z.of_nat (size (activeGames (run s inputs))) + replacements s inputs
   = Z.of_nat (size (activeGames s)) + stats_balance (run_events s inputs))%Z.
Proof.
  induction inputs as [|i inputs IH]; intros s; [simpl; lia|].
  pose proof (step_size_balance s i) as Hstep.
  specialize (IH (step s i).1).
  change (run s (i :: inputs)) with (run (step s i).1 inputs).
  simpl replacements in *. simpl run_events. rewrite stats_balance_app. lia.
Qed.

Lemma replacements_nonneg inputs : ∀ s, (0 ≤ replacements s inputs)%Z.
Proof.
  induction inputs as [|i inputs IH]; intros s; [done|]. simpl.
  specialize (IH (step s i).1).
  destruct i as [socket now [gameKey ws cs gameState
                            |gameKey ws cs|gameKey cardIndex|]
                |socket now [gameKey ws cs gameState
                            |gameKey ws cs|gameKey cardIndex|]|now]; try lia;
    case_decide; lia.
Qed.

(** X13. The number of [addGame] calls minus the number of [removeGame]
    calls the server has made since it started equals the number of sessions
    in the registry plus the number of NEW_GAME messages that arrived for a
    key that already had a session. So the statistics' count of active
    games is never below the number of sessions, and every NEW_GAME that
    replaces a session puts it one further above. *)
Theorem active_games_count_overshoots (inputs : list input) :
  stats_balance (run_events initial inputs)
  = (Z.of_nat (size (activeGames (run initial inputs))) + replacements initial inputs)%Z ∧
  (Z.of_nat (size (activeGames (run initial inputs)))
   ≤ stats_balance (run_events initial inputs))%Z.
Proof.
  pose proof (run_size_balance inputs initial) as Hrun.
  pose proof (replacements_nonneg inputs initial) as Hnonneg.
  unfold initial in Hrun at 3. cbn [activeGames] in Hrun.
  rewrite map_size_empty in Hrun. lia.
Qed.

(** ** Merging twice *)

(** X14. Merging the same snapshot of flags a second time changes nothing:
    the merge is idempotent, for every session (holes and any length
    included) and every snapshot that carries flags. *)
Theorem merge_is_idempotent (S : Game) (A : list bool) (t t' : option string) :
  ∃ merged, merge S (snapshot A t) = Some merged ∧
            merge merged (snapshot A t') = Some merged.
Proof.
  destruct (merge_snapshot S A t) as (l & Hmerge & Hl).
  eexists. split; [exact Hmerge|].
  destruct (merge_snapshot
    (set_revealed {| JsArray.elems := l; JsArray.props := ∅ |} S) A t')
    as (l' & -> & Hl').
  simpl in Hl'. assert (l' = l) as ->; [|done].
  apply list_eq. intros j. rewrite Hl', Hl.
  destruct (JsArray.elems (revealed S) !! j) as [[|b]|]; try done.
  by rewrite <-orb_assoc, orb_diag.
Qed.

(** * The statistics service *)

Section stats_facts.
Import Stats.

Lemma checkAndResetPeriods_count cal svc svc' :
  checkAndResetPeriods cal svc = Some svc' →
  activeGamesCount svc' = activeGamesCount svc.
Proof.
  unfold checkAndResetPeriods. destruct (stats svc); [|done].
  destruct (_ || _); by intros [= <-].
Qed.

Lemma resetPeriods_allTime cal st flags :
  allTime (resetPeriods cal st flags) = allTime st.
Proof.
  unfold resetPeriods.
  by destruct (reset_daily flags), (reset_weekly flags), (reset_monthly flags).
Qed.

(** With loaded statistics the check succeeds and keeps them loaded, with
    the all-time part as it was. *)
Lemma checkAndResetPeriods_loaded cal svc st :
  stats svc = Some st →
  ∃ svc' st', checkAndResetPeriods cal svc = Some svc' ∧ stats svc' = Some st' ∧
              allTime st' = allTime st.
Proof.
  intros Hst. unfold checkAndResetPeriods. rewrite Hst.
  destruct (_ || _).
  - eexists _, _. split_and!; [done|done|]. apply resetPeriods_allTime.
  - by exists svc, st.
Qed.

Lemma handle_count cal c svc :
  activeGamesCount (handle cal c svc).1
  = (activeGamesCount svc + (if is_addGame c then 1 else 0)
     - (if is_removeGame c then 1 else 0))%Z.
Proof.
  destruct c as [k|k|k]; simpl.
  - unfold addGame.
    destruct (checkAndResetPeriods cal _) as [svc'|] eqn:Hcheck; simpl; [|lia].
    apply checkAndResetPeriods_count in Hcheck. simpl in Hcheck.
    destruct (stats svc'); simpl; lia.
  - lia.
  - unfold completeGame.
    destruct (checkAndResetPeriods cal svc) as [svc'|] eqn:Hcheck; simpl; [|lia].
    apply checkAndResetPeriods_count in Hcheck.
    destruct (stats svc'); simpl; lia.
Qed.

Lemma added_cons cc calls :
  added (cc :: calls) = (if is_addGame cc.2 then 1 else 0) + added calls.
Proof.
  unfold added. rewrite filter_cons. destruct (is_addGame cc.2); by case_decide.
Qed.

Lemma removed_cons cc calls :
  removed (cc :: calls) = (if is_removeGame cc.2 then 1 else 0) + removed calls.
Proof.
  unfold removed. rewrite filter_cons. destruct (is_removeGame cc.2); by case_decide.
Qed.

Lemma feed_count calls : ∀ svc,
  activeGamesCount (feed calls svc)
  = (activeGamesCount svc + Z.of_nat (added calls) - Z.of_nat (removed calls))%Z.
Proof.
  induction calls as [|cc calls IH]; intros svc.
  - unfold added, removed. simpl. lia.
  - change (feed (cc :: calls) svc) with (feed calls (handle cc.1 cc.2 svc).1).
    rewrite IH, handle_count, added_cons, removed_cons.
    destruct (is_addGame cc.2), (is_removeGame cc.2); lia.
Qed.

Lemma handle_loaded cal c svc st :
  stats svc = Some st →
  (handle cal c svc).2 = returned ∧
  ∃ st', stats (handle cal c svc).1 = Some st' ∧
         totalGames (allTime st')
           = totalGames (allTime st) + (if is_addGame c then 1 else 0) ∧
         serverStartTime (allTime st') = serverStartTime (allTime st).
Proof.
  intros Hst. destruct c as [k|k|k]; simpl.
  - unfold addGame.
    destruct (checkAndResetPeriods_loaded cal
      {| stats := stats svc; activeGamesCount := (activeGamesCount svc + 1)%Z;
         isDirty := isDirty svc |} st Hst) as (svc' & st' & -> & -> & Hall).
    simpl. split; [done|]. eexists. split; [done|]. simpl. by rewrite Hall.
  - split; [done|]. exists st. split; [done|]. simpl. split; [lia|done].
  - unfold completeGame.
    destruct (checkAndResetPeriods_loaded cal svc st Hst) as (svc' & st' & -> & -> & Hall).
    simpl. split; [done|]. eexists. split; [done|]. simpl. rewrite Hall.
    split; [lia|done].
Qed.

End stats_facts.

(** X15. Over every sequence of [addGame], [removeGame] and [completeGame]
    calls, [activeGamesCount] moves by the number of [addGame] calls minus
    the number of [removeGame] calls, whether or not the statistics are
    loaded (an [addGame] that throws has already counted) and without any
    floor at zero. *)
Theorem active_count_follows_calls (calls : list (Stats.Calendar * Stats.call))
    (svc : Stats.Service) :
  Stats.activeGamesCount (Stats.feed calls svc)
  = (Stats.activeGamesCount svc + Z.of_nat (Stats.added calls)
     - Z.of_nat (Stats.removed calls))%Z.
Proof. apply feed_count. Qed.

(** X16. Once the statistics are loaded no call throws and they stay
    loaded; over every sequence of calls, whatever the calendar does in
    between, the all-time total grows by exactly the number of [addGame]
    calls and the server start time is kept. *)
Theorem total_games_counts_additions (calls : list (Stats.Calendar * Stats.call))
    (svc : Stats.Service) (st : Stats.StatsData) :
  Stats.stats svc = Some st →
  ∃ st', Stats.stats (Stats.feed calls svc) = Some st' ∧
         Stats.totalGames (Stats.allTime st')
           = Stats.totalGames (Stats.allTime st) + Stats.added calls ∧
         Stats.serverStartTime (Stats.allTime st')
           = Stats.serverStartTime (Stats.allTime st) ∧
         ∀ cal c, (Stats.handle cal c (Stats.feed calls svc)).2 = Stats.returned.
Proof.
  revert svc st. induction calls as [|cc calls IH]; intros svc st Hst.
  - exists st. split; [done|].
    split; [unfold Stats.added; simpl; lia|]. split; [done|].
    intros cal c. by destruct (handle_loaded cal c svc st Hst).
  - change (Stats.feed (cc :: calls) svc)
      with (Stats.feed calls (Stats.handle cc.1 cc.2 svc).1).
    destruct (handle_loaded cc.1 cc.2 svc st Hst) as (_ & st1 & Hst1 & Htotal & Hstart).
    destruct (IH _ st1 Hst1) as (st' & Hst' & Htotal' & Hstart' & Hret).
    exists st'. split; [done|].
    split; [rewrite Htotal', Htotal, added_cons; lia|].
    split; [congruence|done].
Qed.

Section stats_periods.
Import Stats.

(** What the check leaves: each period whose stamp differs from the calendar
    is replaced by an empty one with the calendar's stamp, the others and
    the all-time part are kept. *)
Lemma checkAndResetPeriods_spec cal svc st :
  stats svc = Some st →
  ∃ svc' st',
    checkAndResetPeriods cal svc = Some svc' ∧ stats svc' = Some st' ∧
    activeGamesCount svc' = activeGamesCount svc ∧
    (svc' = svc ∨ isDirty svc' = true) ∧
    daily st' = (if decide (date (daily st) = getToday cal) then daily st
                 else {| date := getToday cal; daily_stats := createEmptyPeriodStats |}) ∧
    weekly st' = (if decide (startDate (weekly st) = getWeekStart cal) then weekly st
                  else {| startDate := getWeekStart cal;
                          weekly_stats := createEmptyPeriodStats |}) ∧
    monthly st' = (if decide (month (monthly st) = (getCurrentMonth cal).1 ∧
                              year (monthly st) = (getCurrentMonth cal).2)
                   then monthly st
                   else {| month := (getCurrentMonth cal).1;
                           year := (getCurrentMonth cal).2;
                           monthly_stats := createEmptyPeriodStats |}) ∧
    allTime st' = allTime st.
Proof.
  intros Hst. unfold checkAndResetPeriods. rewrite Hst.
  unfold shouldResetPeriod, resetPeriods. simpl.
  repeat case_bool_decide; simpl;
    eexists _, _; (split; [reflexivity|]); (split; [try reflexivity; exact Hst|]);
    (split; [reflexivity|]); (split; [first [by left | by right]|]);
    repeat case_decide; try done; intuition congruence.
Qed.

Lemma stamps_after_check cal svc svc' :
  checkAndResetPeriods cal svc = Some svc' →
  ∃ st', stats svc' = Some st' ∧
         date (daily st') = getToday cal ∧
         startDate (weekly st') = getWeekStart cal ∧
         month (monthly st') = (getCurrentMonth cal).1 ∧
         year (monthly st') = (getCurrentMonth cal).2.
Proof.
  intros Hcheck. destruct (stats svc) as [st|] eqn:Hst.
  - destruct (checkAndResetPeriods_spec cal svc st Hst)
      as (svc1 & st' & Hcheck1 & Hst' & _ & _ & Hd & Hw & Hm & _).
    rewrite Hcheck in Hcheck1. injection Hcheck1 as <-.
    exists st'. split; [done|]. rewrite Hd, Hw, Hm.
    repeat case_decide; simpl; intuition congruence.
  - unfold checkAndResetPeriods in Hcheck. by rewrite Hst in Hcheck.
Qed.

End stats_periods.

(** X17. [addGame] on loaded statistics returns with the statistics marked
    dirty and the active count one higher. Each period whose stamp is the
    calendar's gets one more created game; a period whose stamp differs (a
    new day, week or month) is restarted first, so it forgets both its
    counters and then counts this game as its first; the all-time total
    grows by one. *)
Theorem addGame_counts_after_rollover (cal : Stats.Calendar) (gameKey : string)
    (svc : Stats.Service) (st : Stats.StatsData) :
  Stats.stats svc = Some st →
  ∃ st',
    Stats.addGame cal gameKey svc
      = ({| Stats.stats := Some st';
            Stats.activeGamesCount := (Stats.activeGamesCount svc + 1)%Z;
            Stats.isDirty := true |}, Stats.returned) ∧
    Stats.daily st'
      = {| Stats.date := Stats.getToday cal;
           Stats.daily_stats := Stats.created_incr
             (if decide (Stats.date (Stats.daily st) = Stats.getToday cal)
              then Stats.daily_stats (Stats.daily st)
              else Stats.createEmptyPeriodStats) |} ∧
    Stats.weekly st'
      = {| Stats.startDate := Stats.getWeekStart cal;
           Stats.weekly_stats := Stats.created_incr
             (if decide (Stats.startDate (Stats.weekly st) = Stats.getWeekStart cal)
              then Stats.weekly_stats (Stats.weekly st)
              else Stats.createEmptyPeriodStats) |} ∧
    Stats.monthly st'
      = {| Stats.month := (Stats.getCurrentMonth cal).1;
           Stats.year := (Stats.getCurrentMonth cal).2;
           Stats.monthly_stats := Stats.created_incr
             (if decide (Stats.month (Stats.monthly st) = (Stats.getCurrentMonth cal).1 ∧
                         Stats.year (Stats.monthly st) = (Stats.getCurrentMonth cal).2)
              then Stats.monthly_stats (Stats.monthly st)
              else Stats.createEmptyPeriodStats) |} ∧
    Stats.allTime st'
      = {| Stats.totalGames := Stats.totalGames (Stats.allTime st) + 1;
           Stats.serverStartTime := Stats.serverStartTime (Stats.allTime st) |}.
Proof.
  intros Hst. unfold Stats.addGame.
  destruct (checkAndResetPeriods_spec cal
    {| Stats.stats := Stats.stats svc;
       Stats.activeGamesCount := (Stats.activeGamesCount svc + 1)%Z;
       Stats.isDirty := Stats.isDirty svc |} st Hst)
    as (svc1 & st1 & -> & -> & Hcount & _ & Hd & Hw & Hm & Ha).
  simpl in Hcount. eexists. split.
  - unfold Stats.markDirty, Stats.set_stats. simpl. by rewrite Hcount.
  - simpl. rewrite Hd, Hw, Hm, Ha.
    split_and!; try done;
      repeat case_decide; simpl; destruct_and?; f_equal; congruence.
Qed.

(** X18. [completeGame] on loaded statistics returns with the statistics
    marked dirty; it adds one completed game to each period (after
    restarting the periods whose stamp differs from the calendar) and leaves
    the created counts of the periods that were not restarted, the all-time
    part and the active count as they were. *)
Theorem completeGame_counts_after_rollover (cal : Stats.Calendar) (gameKey : string)
    (svc : Stats.Service) (st : Stats.StatsData) :
  Stats.stats svc = Some st →
  ∃ st',
    Stats.completeGame cal gameKey svc
      = ({| Stats.stats := Some st';
            Stats.activeGamesCount := Stats.activeGamesCount svc;
            Stats.isDirty := true |}, Stats.returned) ∧
    Stats.daily st'
      = {| Stats.date := Stats.getToday cal;
           Stats.daily_stats := Stats.completed_incr
             (if decide (Stats.date (Stats.daily st) = Stats.getToday cal)
              then Stats.daily_stats (Stats.daily st)
              else Stats.createEmptyPeriodStats) |} ∧
    Stats.weekly st'
      = {| Stats.startDate := Stats.getWeekStart cal;
           Stats.weekly_stats := Stats.completed_incr
             (if decide (Stats.startDate (Stats.weekly st) = Stats.getWeekStart cal)
              then Stats.weekly_stats (Stats.weekly st)
              else Stats.createEmptyPeriodStats) |} ∧
    Stats.monthly st'
      = {| Stats.month := (Stats.getCurrentMonth cal).1;
           Stats.year := (Stats.getCurrentMonth cal).2;
           Stats.monthly_stats := Stats.completed_incr
             (if decide (Stats.month (Stats.monthly st) = (Stats.getCurrentMonth cal).1 ∧
                         Stats.year (Stats.monthly st) = (Stats.getCurrentMonth cal).2)
              then Stats.monthly_stats (Stats.monthly st)
              else Stats.createEmptyPeriodStats) |} ∧
    Stats.allTime st' = Stats.allTime st.
Proof.
  intros Hst. unfold Stats.completeGame.
  destruct (checkAndResetPeriods_spec cal svc st Hst)
    as (svc1 & st1 & -> & -> & Hcount & _ & Hd & Hw & Hm & Ha).
  eexists. split.
  - unfold Stats.markDirty, Stats.set_stats. simpl. by rewrite Hcount.
  - simpl. rewrite Hd, Hw, Hm, Ha.
    split_and!; try done;
      repeat case_decide; simpl; destruct_and?; f_equal; congruence.
Qed.

(** X19. The period check is idempotent: after it has run with a calendar,
    the stamps of the three periods are the calendar's, and running it again
    with the same calendar changes nothing (in particular it does not mark
    the statistics dirty again). *)
Theorem period_check_is_idempotent (cal : Stats.Calendar) (svc svc' : Stats.Service) :
  Stats.checkAndResetPeriods cal svc = Some svc' →
  Stats.checkAndResetPeriods cal svc' = Some svc' ∧
  ∃ st', Stats.stats svc' = Some st' ∧
         Stats.shouldResetPeriod cal st'
           = {| Stats.reset_daily := false; Stats.reset_weekly := false;
                Stats.reset_monthly := false |}.
Proof.
  intros Hcheck.
  destruct (stamps_after_check cal svc svc' Hcheck) as (st' & Hst' & Hd & Hw & Hm & Hy).
  assert (Stats.shouldResetPeriod cal st'
          = {| Stats.reset_daily := false; Stats.reset_weekly := false;
               Stats.reset_monthly := false |}) as Hflags.
  { unfold Stats.shouldResetPeriod. rewrite Hd, Hw, Hm, Hy.
    by rewrite !bool_decide_eq_false_2 by (by intros ?). }
  split; [|by exists st'].
  unfold Stats.checkAndResetPeriods. rewrite Hst'. cbv zeta. by rewrite Hflags.
Qed.

(** X20. While the statistics are not loaded ([stats] is [null]), over every
    sequence of calls they stay unloaded and are never marked dirty, every
    [addGame] and [completeGame] throws and [getStats] gives no report; only
    the active count moves (see X15). *)
Theorem unloaded_statistics_only_count (calls : list (Stats.Calendar * Stats.call))
    (svc : Stats.Service) :
  Stats.stats svc = None →
  Stats.stats (Stats.feed calls svc) = None ∧
  Stats.isDirty (Stats.feed calls svc) = Stats.isDirty svc ∧
  (∀ cal k, (Stats.addGame cal k (Stats.feed calls svc)).2 = Stats.threw) ∧
  (∀ cal k, (Stats.completeGame cal k (Stats.feed calls svc)).2 = Stats.threw) ∧
  (∀ cal up, (Stats.getStats cal up (Stats.feed calls svc)).2 = None).
Proof.
  revert svc. induction calls as [|cc calls IH]; intros svc Hst.
  - simpl. split_and!; try done.
    + intros cal k. unfold Stats.addGame, Stats.checkAndResetPeriods. simpl.
      by rewrite Hst.
    + intros cal k. unfold Stats.completeGame, Stats.checkAndResetPeriods.
      by rewrite Hst.
    + intros cal up. unfold Stats.getStats, Stats.checkAndResetPeriods.
      by rewrite Hst.
  - change (Stats.feed (cc :: calls) svc)
      with (Stats.feed calls (Stats.handle cc.1 cc.2 svc).1).
    assert (Stats.stats (Stats.handle cc.1 cc.2 svc).1 = None ∧
            Stats.isDirty (Stats.handle cc.1 cc.2 svc).1 = Stats.isDirty svc)
      as [Hst1 Hdirty1].
    { destruct cc as [cal [k|k|k]]; simpl.
      - unfold Stats.addGame, Stats.checkAndResetPeriods. simpl. by rewrite Hst.
      - done.
      - unfold Stats.completeGame, Stats.checkAndResetPeriods. by rewrite Hst. }
    destruct (IH _ Hst1) as (H1 & H2 & H3 & H4 & H5).
    split_and!; try done. congruence.
Qed.

(** ** What the statistics endpoint reports *)

Lemma calls_balance (events : list event) : ∀ calls : list (Stats.Calendar * Stats.call),
  calls.*2 = stats_calls events →
  (Z.of_nat (Stats.added calls) - Z.of_nat (Stats.removed calls))%Z
  = stats_balance events.
Proof.
  induction events as [|e events IH]; intros calls Hcalls.
  - destruct calls; [done|discriminate].
  - destruct e; simpl in *; try by apply IH.
    all: destruct calls as [|[cal c] calls]; [discriminate|].
    all: injection Hcalls as -> Hcalls.
    all: rewrite added_cons, removed_cons; simpl.
    all: specialize (IH calls Hcalls); lia.
Qed.

Lemma feed_loaded (calls : list (Stats.Calendar * Stats.call)) : ∀ svc st,
  Stats.stats svc = Some st → is_Some (Stats.stats (Stats.feed calls svc)).
Proof.
  induction calls as [|cc calls IH]; intros svc st Hst; [by exists st|].
  destruct (handle_loaded cc.1 cc.2 svc st Hst) as (_ & st1 & Hst1 & _).
  by apply (IH _ st1).
Qed.

(** X21. With loaded statistics, after the service has received the calls of
    any run of the server, [getStats] (the body of GET /stats) reports as
    [activeGames] the count it started with, plus the number of sessions in
    the registry, plus one for every NEW_GAME that replaced a session. *)
Theorem stats_report_counts_replaced_sessions (inputs : list input)
    (calls : list (Stats.Calendar * Stats.call)) (svc : Stats.Service)
    (st : Stats.StatsData) (cal : Stats.Calendar) (up : Z) :
  Stats.stats svc = Some st →
  calls.*2 = stats_calls (run_events initial inputs) →
  ∃ report,
    (Stats.getStats cal up (Stats.feed calls svc)).2 = Some report ∧
    Stats.activeGames report
    = (Stats.activeGamesCount svc
       + Z.of_nat (size (activeGames (run initial inputs)))
       + replacements initial inputs)%Z.
Proof.
  intros Hst Hcalls.
  destruct (feed_loaded calls svc st Hst) as (st1 & Hst1).
  destruct (checkAndResetPeriods_spec cal (Stats.feed calls svc) st1 Hst1)
    as (svc' & st' & Hcheck & Hst' & Hcount & _).
  unfold Stats.getStats. rewrite Hcheck, Hst'. eexists. split; [done|].
  simpl. rewrite Hcount, feed_count.
  pose proof (calls_balance _ _ Hcalls) as Hbal.
  pose proof (run_size_balance inputs initial) as Hrun.
  unfold initial in Hrun at 3. cbn [activeGames] in Hrun.
  rewrite map_size_empty in Hrun. lia.
Qed.

(** ** The statistics calls of the handlers *)


Lemma stats_calls_removeGame (l : list (string * Game)) :
  stats_calls ((λ kg, stats_removeGame kg.1) <$> l)
  = (λ kg, Stats.call_removeGame kg.1) <$> l.
Proof.
  induction l as [|kg l IH]; [done|].
  rewrite !fmap_cons. unfold stats_calls. simpl. f_equal. apply IH.
Qed.

Lemma feed_removeGame (calls : list (Stats.Calendar * Stats.call)) : ∀ svc,
  Forall (λ c, Stats.is_removeGame c = true) calls.*2 →
  Stats.feed calls svc
  = {| Stats.stats := Stats.stats svc;
       Stats.activeGamesCount := (Stats.activeGamesCount svc - Z.of_nat (length calls))%Z;
       Stats.isDirty := Stats.isDirty svc |}.
Proof.
  induction calls as [|[cal c] calls IH]; intros svc Hall.
  - destruct svc. simpl. f_equal. lia.
  - rewrite fmap_cons in Hall. apply Forall_cons in Hall as [Hc Hall].
    change (Stats.feed ((cal, c) :: calls) svc)
      with (Stats.feed calls (Stats.handle cal c svc).1).
    rewrite (IH _ Hall). destruct c; try discriminate Hc.
    simpl. f_equal. lia.
Qed.

(** X26. The statistics do not depend on the order in which a sweep removes
    the idle sessions: whatever the order in which the [removeGame] calls of
    one sweep reach the service, it ends with the same statistics and
    dirty flag as before and with its active count lowered by the number of
    sessions the sweep removed. *)
Theorem sweep_calls_in_any_order (s : Server) (now : Z)
    (calls : list (Stats.Calendar * Stats.call)) (svc : Stats.Service) :
  calls.*2 ≡ₚ stats_calls (step s (sweep now)).2 →
  Stats.feed calls svc
  = {| Stats.stats := Stats.stats svc;
       Stats.activeGamesCount :=
         (Stats.activeGamesCount svc
          - (Z.of_nat (size (activeGames s))
             - Z.of_nat (size (activeGames (step s (sweep now)).1))))%Z;
       Stats.isDirty := Stats.isDirty svc |}.
Proof.
  simpl. unfold cleanup. cbn [fst snd activeGames].
  set (P := λ kg : string * Game, (lastActivity kg.2 < now - 3600000)%Z).
  rewrite stats_calls_removeGame. intros Hperm.
  rewrite feed_removeGame.
  - f_equal.
    assert (length calls = size (filter P (activeGames s))) as ->.
    { rewrite <-(length_fmap snd calls), Hperm, length_fmap.
      apply length_map_to_list. }
    assert (size (activeGames s)
            = size (filter P (activeGames s))
              + size (filter (λ kg, ¬ P kg) (activeGames s))) as Hsplit.
    { rewrite <-(map_filter_union_complement P (activeGames s)) at 1.
      apply map_size_disj_union, map_disjoint_filter_complement. }
    rewrite Hsplit. unfold P. lia.
  - rewrite Hperm. apply Forall_fmap, Forall_true. done.
Qed.

(** * The key generator and the search for an unused key *)

Section key_facts.
Import KeyGenerator.

Lemma alphabets_NoDup (i : nat) : NoDup (letters_at i).
Proof.
  unfold letters_at. case_bool_decide; compute_done.
Qed.

(** With every draw inside its alphabet, the six letters the loop pushes. *)
Lemma generated_letters (draw : nat → nat) :
  (∀ i, i < 6 → draw i < length (letters_at i)) →
  ∃ c0 c1 c2 c3 c4 c5,
    letters_at 0 !! draw 0 = Some c0 ∧ letters_at 1 !! draw 1 = Some c1 ∧
    letters_at 2 !! draw 2 = Some c2 ∧ letters_at 3 !! draw 3 = Some c3 ∧
    letters_at 4 !! draw 4 = Some c4 ∧ letters_at 5 !! draw 5 = Some c5 ∧
    generateAIKey draw = [c0; c1; c2; c3; c4; c5; EN].
Proof.
  intros Hdraw.
  destruct (lookup_lt_is_Some_2 _ _ (Hdraw 0 ltac:(lia))) as [c0 H0].
  destruct (lookup_lt_is_Some_2 _ _ (Hdraw 1 ltac:(lia))) as [c1 H1].
  destruct (lookup_lt_is_Some_2 _ _ (Hdraw 2 ltac:(lia))) as [c2 H2].
  destruct (lookup_lt_is_Some_2 _ _ (Hdraw 3 ltac:(lia))) as [c3 H3].
  destruct (lookup_lt_is_Some_2 _ _ (Hdraw 4 ltac:(lia))) as [c4 H4].
  destruct (lookup_lt_is_Some_2 _ _ (Hdraw 5 ltac:(lia))) as [c5 H5].
  exists c0, c1, c2, c3, c4, c5. split_and!; try done.
  unfold generateAIKey. cbn [generate_loop app].
  by rewrite H0, H1, H2, H3, H4, H5.
Qed.

End key_facts.

(** X22. Whatever the random draws are (each an index of its alphabet, as
    [Math.floor(Math.random() * letters.length)] is), the key that
    [generateAIKey] returns has seven letters, a consonant at positions 0, 2
    and 4, a vowel at positions 1, 3 and 5 and the letter En at the end, and
    [isAIKey] accepts it. *)
Theorem generated_key_is_an_AI_key (draw : nat → nat) :
  (∀ i, i < 6 → draw i < length (KeyGenerator.letters_at i)) →
  KeyGenerator.isAIKey (KeyGenerator.generateAIKey draw) = true ∧
  length (KeyGenerator.generateAIKey draw) = 7 ∧
  KeyGenerator.generateAIKey draw !! 6 = Some KeyGenerator.EN ∧
  ∀ i, i < 6 →
    ∃ c, KeyGenerator.generateAIKey draw !! i = Some c ∧
         c ∈ (if bool_decide (i mod 2 = 1) then KeyGenerator.VOWELS
              else KeyGenerator.CONSONANTS).
Proof.
  intros Hdraw.
  destruct (generated_letters draw Hdraw)
    as (c0 & c1 & c2 & c3 & c4 & c5 & H0 & H1 & H2 & H3 & H4 & H5 & ->).
  split_and!; try done.
  intros i Hi.
  destruct i as [|[|[|[|[|[|i]]]]]]; [| | | | | | lia]; eexists; (split; [done|]);
    by eapply list_elem_of_lookup_2.
Qed.

(** X23. Different draws give different keys: if two runs of
    [generateAIKey], each with its draws inside the alphabets, return the
    same key, then they drew the same index at each of the six positions.
    The generator therefore reaches 14 * 6 * 14 * 6 * 14 * 6 distinct keys. *)
Theorem generated_key_determines_draws (draw draw' : nat → nat) :
  (∀ i, i < 6 → draw i < length (KeyGenerator.letters_at i)) →
  (∀ i, i < 6 → draw' i < length (KeyGenerator.letters_at i)) →
  KeyGenerator.generateAIKey draw = KeyGenerator.generateAIKey draw' →
  ∀ i, i < 6 → draw i = draw' i.
Proof.
  intros Hdraw Hdraw' Hkey.
  destruct (generated_letters draw Hdraw)
    as (c0 & c1 & c2 & c3 & c4 & c5 & H0 & H1 & H2 & H3 & H4 & H5 & Hk).
  destruct (generated_letters draw' Hdraw')
    as (d0 & d1 & d2 & d3 & d4 & d5 & H0' & H1' & H2' & H3' & H4' & H5' & Hk').
  rewrite Hk, Hk' in Hkey. injection Hkey as -> -> -> -> -> ->.
  intros i Hi.
  destruct i as [|[|[|[|[|[|i]]]]]]; [| | | | | | lia];
    eapply NoDup_lookup; eauto using alphabets_NoDup.
Qed.

(** X24. The search for an unused key tests at most ten generated keys. It
    returns the first of them that the games file does not hold; if the
    file holds all ten it throws, after generating an eleventh key that is
    never tested. Eleven rounds of the loop always suffice. *)
Theorem key_search_is_bounded {K : Type} (gen : nat → K) (gameExists : K → bool)
    (fuel : nat) :
  (11 ≤ fuel)%nat →
  match unique_key_loop gen gameExists fuel 0 with
  | found key =>
      ∃ n, n < 10 ∧ key = gen n ∧ gameExists key = false ∧
           ∀ m, m < n → gameExists (gen m) = true
  | gave_up => ∀ n, n < 10 → gameExists (gen n) = true
  | out_of_fuel => False
  end.
Proof.
  intros Hfuel.
  assert (∀ fuel attempts,
    (attempts ≤ 10)%nat → (11 ≤ fuel + attempts)%nat →
    (∀ m, m < attempts → gameExists (gen m) = true) →
    match unique_key_loop gen gameExists fuel attempts with
    | found key =>
        ∃ n, n < 10 ∧ key = gen n ∧ gameExists key = false ∧
             ∀ m, m < n → gameExists (gen m) = true
    | gave_up => ∀ n, n < 10 → gameExists (gen n) = true
    | out_of_fuel => False
    end) as Hloop.
  { clear fuel Hfuel. induction fuel as [|fuel IH]; intros attempts Hle Hsum Hall.
    - lia.
    - simpl. case_decide as Hten.
      + intros n Hn. apply Hall. lia.
      + destruct (gameExists (gen attempts)) eqn:Hex.
        * apply IH; [lia|lia|]. intros m Hm.
          destruct (decide (m = attempts)) as [->|]; [done|]. apply Hall. lia.
        * exists attempts. split_and!; [lia|done|done|done]. }
  apply Hloop; [lia|lia|]. intros m Hm. lia.
Qed.

(** * The further properties on concrete inputs *)

Lemma completed_no_drift : no_drift completed.
Proof. apply run_no_drift, run_no_drift. apply map_Forall_empty. Defined.

Lemma fresh_game_ok : derived_ok fresh_game.
Proof. vm_compute. reflexivity. Defined.

Lemma completed_game_ok : derived_ok completed_game.
Proof. vm_compute. reflexivity. Defined.

Lemma first_letter_in_range (i : nat) :
  i < 6 → first_letter i < length (KeyGenerator.letters_at i).
Proof.
  intros _. unfold first_letter, KeyGenerator.letters_at.
  case_bool_decide; simpl; lia.
Defined.

(** X1: socket "a", attached to "K", asks to join "Z" without a board. *)
Lemma join_without_board_only_leaves_witness :
  step created (from_socket "a" 50 (JOIN_GAME "Z" None None None))
    = step created (from_socket "a" 50 disconnect) ∧
  activeGames (step created (from_socket "a" 50 (JOIN_GAME "Z" None None None))).1
    !! "Z" = None.
Proof.
  apply (join_without_board_only_leaves created "a" 50 "Z" None None None).
  - vm_compute. reflexivity.
  - left. reflexivity.
Defined.


(** X3: the first join of "K" brings a board and a snapshot without flags. *)
Lemma join_create_without_flags_throws_witness :
  ∃ g, step initial
         (from_socket "a" 10
            (JOIN_GAME "K" (Some []) (Some board) (Some snapshot_without_flags)))
         = ({| activeGames := <["K" := g]> (activeGames initial);
               currentGames := currentGames initial |},
            [stats_addGame "K"; uncaught_TypeError]) ∧
       words g = [] ∧ colors g = board ∧ revealed g = JsArray.fill 25 false ∧
       players g = ∅ ∧ derived_ok g.
Proof.
  destruct (join_create_without_flags_throws initial "a" 10 "K" [] board
              snapshot_without_flags)
    as (g & Hstep & Hw & Hc & Hr & Hp & Hok & _); [reflexivity..|].
  by exists g.
Defined.

(** X6: the fresh game, last active at time 10, is swept at time 3600011. *)
Lemma swept_session_is_lost_witness :
  let s' := (step created (sweep 3600011)).1 in
  activeGames s' !! "K" = None ∧
  currentGames s' !! "a" = currentGames created !! "a" ∧
  step s' (from_socket "a" 3600020 (REVEAL_CARD "K" 0)) = (s', []) ∧
  activeGames (step s' (from_socket "a" 3600020 (JOIN_GAME "K" None None None))).1
    !! "K" = None.
Proof.
  apply (swept_session_is_lost created "a" 3600011 3600020 "K" fresh_game 0 None).
  - exact created_session.
  - reflexivity.
Defined.

(** X7: the completed game after a further reveal and a join. *)
Lemma game_over_is_permanent_witness :
  ∃ g', activeGames
          (run completed
             [from_socket "a" 50 (REVEAL_CARD "K" 5);
              from_socket "b" 60 (JOIN_GAME "K" None None None)]) !! "K" = Some g' ∧
        gameOver g' = true ∧ is_Some (winner g').
Proof.
  apply (game_over_is_permanent completed _ "K" completed_game).
  - exact completed_no_drift.
  - repeat constructor.
  - exact completed_session.
  - reflexivity.
Defined.

(** X8: card 5 revealed in the completed game. *)
Lemma completion_is_notified_again_witness :
  ∃ g', (step completed (from_socket "a" 50 (REVEAL_CARD "K" 5))).2
          = [stats_completeGame "K"; emit_GAME_STATE "K" g'] ∧
        gameOver g' = true.
Proof.
  destruct (completion_is_notified_again completed "a" 50 "K" 5 completed_game)
    as (g' & Hevents & Hover & _).
  - vm_compute. reflexivity.
  - exact completed_session.
  - exact completed_game_ok.
  - reflexivity.
  - reflexivity.
  - by exists g'.
Defined.

(** X9: the blue card 0 revealed in the fresh game: 9 blue cards become 8. *)
Lemma reveal_lowers_the_count_witness :
  ∃ g', activeGames (step created (from_socket "a" 20 (REVEAL_CARD "K" 0))).1 !! "K"
          = Some g' ∧
        9 = blue (remainingCards g') + 1 ∧ 8 = red (remainingCards g') + 0.
Proof.
  apply (reveal_lowers_the_count created "a" 20 "K" 0 fresh_game "blue").
  - vm_compute. reflexivity.
  - exact created_session.
  - exact fresh_game_ok.
  - reflexivity.
  - reflexivity.
Defined.

(** X10: a NEW_GAME without [colors]. *)
Lemma new_game_without_blue_is_over_witness :
  ∃ g', activeGames (step initial (from_socket "a" 10 (NEW_GAME "K" None None))).1
          !! "K" = Some g' ∧
        colors g' = [] ∧
        blue (remainingCards g') = 0 ∧ gameOver g' = true ∧ winner g' = Some "blue".
Proof.
  apply (new_game_without_blue_is_over initial "a" 10 "K" None None).
  apply not_elem_of_nil.
Defined.

(** X11: socket "a" in the fresh game. *)
Lemma one_session_per_connection_witness :
  "K" = "K" ∧
  currentGames
    (run initial [from_socket "a" 10 (NEW_GAME "K" (Some []) (Some board))])
    !! "a" = Some "K".
Proof.
  apply (one_session_per_connection
           [from_socket "a" 10 (NEW_GAME "K" (Some []) (Some board))]
           "a" "K" "K" fresh_game fresh_game).
  - exact created_session.
  - vm_compute. reflexivity.
  - discriminate.
  - exact created_session.
  - vm_compute. reflexivity.
  - discriminate.
Defined.

(** X12: socket "a", attached to the empty key, disconnects. *)
Lemma empty_key_is_never_left_witness :
  activeGames (step joined_empty_key (from_socket "a" 50 disconnect)).1 !! ""
    = activeGames joined_empty_key !! "" ∧
  (disconnect = disconnect →
   step joined_empty_key (from_socket "a" 50 disconnect) = (joined_empty_key, [])).
Proof.
  apply (empty_key_is_never_left joined_empty_key "a" 50 disconnect).
  - vm_compute. reflexivity.
  - discriminate.
Defined.

(** X16, X17, X18: the service on Monday's statistics; a game is added and
    completed on Tuesday. *)
Lemma total_games_counts_additions_witness :
  ∃ st', Stats.stats
           (Stats.feed [(monday, Stats.call_addGame "K");
                        (tuesday, Stats.call_addGame "L");
                        (tuesday, Stats.call_removeGame "K")] loaded_service)
         = Some st' ∧
         Stats.totalGames (Stats.allTime st') = 0 + 2.
Proof.
  destruct (total_games_counts_additions
              [(monday, Stats.call_addGame "K");
               (tuesday, Stats.call_addGame "L");
               (tuesday, Stats.call_removeGame "K")] loaded_service monday_stats eq_refl)
    as (st' & Hst' & Htotal & _).
  by exists st'.
Defined.

Lemma addGame_counts_after_rollover_witness :
  ∃ st', (Stats.addGame tuesday "K" loaded_service).1
         = {| Stats.stats := Some st'; Stats.activeGamesCount := 1;
              Stats.isDirty := true |} ∧
         Stats.daily st'
         = {| Stats.date := "2024-05-07";
              Stats.daily_stats := {| Stats.gamesCreated := 1;
                                      Stats.gamesCompleted := 0 |} |}.
Proof.
  destruct (addGame_counts_after_rollover tuesday "K" loaded_service monday_stats eq_refl)
    as (st' & Hadd & Hdaily & _).
  exists st'. rewrite Hadd, Hdaily. split; reflexivity.
Defined.

Lemma completeGame_counts_after_rollover_witness :
  ∃ st', (Stats.completeGame tuesday "K" loaded_service).1
         = {| Stats.stats := Some st'; Stats.activeGamesCount := 0;
              Stats.isDirty := true |} ∧
         Stats.daily st'
         = {| Stats.date := "2024-05-07";
              Stats.daily_stats := {| Stats.gamesCreated := 0;
                                      Stats.gamesCompleted := 1 |} |}.
Proof.
  destruct (completeGame_counts_after_rollover tuesday "K" loaded_service monday_stats
              eq_refl) as (st' & Hcomplete & Hdaily & _).
  exists st'. rewrite Hcomplete, Hdaily. split; reflexivity.
Defined.

(** X19: the check on Tuesday, run twice. *)
Lemma period_check_is_idempotent_witness :
  ∃ svc', Stats.checkAndResetPeriods tuesday loaded_service = Some svc' ∧
          Stats.checkAndResetPeriods tuesday svc' = Some svc'.
Proof.
  eexists. split; [reflexivity|].
  apply (period_check_is_idempotent tuesday loaded_service). reflexivity.
Defined.

(** X20: calls on a service whose statistics are not loaded. *)
Lemma unloaded_statistics_only_count_witness :
  Stats.stats (Stats.feed [(monday, Stats.call_addGame "K")] unloaded_service) = None ∧
  (Stats.addGame monday "L"
     (Stats.feed [(monday, Stats.call_addGame "K")] unloaded_service)).2 = Stats.threw.
Proof.
  destruct (unloaded_statistics_only_count [(monday, Stats.call_addGame "K")]
              unloaded_service eq_refl) as (Hst & _ & Hadd & _).
  split; [exact Hst|apply Hadd].
Defined.

(** X21: two NEW_GAME messages for the same key: one session, two reported. *)
Lemma stats_report_counts_replaced_sessions_witness :
  ∃ report,
    (Stats.getStats monday 7
       (Stats.feed [(monday, Stats.call_addGame "K"); (monday, Stats.call_addGame "K")]
          loaded_service)).2 = Some report ∧
    Stats.activeGames report
    = (0 + Z.of_nat (size (activeGames
                             (run initial
                                [from_socket "a" 10 (NEW_GAME "K" (Some []) (Some board));
                                 from_socket "b" 20 (NEW_GAME "K" (Some []) (Some board))])))
       + replacements initial
           [from_socket "a" 10 (NEW_GAME "K" (Some []) (Some board));
            from_socket "b" 20 (NEW_GAME "K" (Some []) (Some board))])%Z.
Proof.
  apply (stats_report_counts_replaced_sessions
           [from_socket "a" 10 (NEW_GAME "K" (Some []) (Some board));
            from_socket "b" 20 (NEW_GAME "K" (Some []) (Some board))]
           [(monday, Stats.call_addGame "K"); (monday, Stats.call_addGame "K")]
           loaded_service monday_stats monday 7).
  - reflexivity.
  - vm_compute. reflexivity.
Defined.

(** X22, X23: the key drawn with the first letter everywhere. *)
Lemma generated_key_is_an_AI_key_witness :
  KeyGenerator.isAIKey (KeyGenerator.generateAIKey first_letter) = true ∧
  length (KeyGenerator.generateAIKey first_letter) = 7.
Proof.
  destruct (generated_key_is_an_AI_key first_letter first_letter_in_range)
    as (Hok & Hlen & _).
  split; [exact Hok|exact Hlen].
Defined.

Lemma generated_key_determines_draws_witness : first_letter 3 = first_letter 3.
Proof.
  apply (generated_key_determines_draws first_letter first_letter
           first_letter_in_range first_letter_in_range eq_refl 3).
  lia.
Defined.

(** X24: the keys are 0, 1, 2, ... and the file holds 0, 1 and 2. *)
Lemma key_search_is_bounded_witness :
  ∃ n, n < 10 ∧ 3 = id n ∧ (3 <? 3)%nat = false ∧
       ∀ m, m < n → (id m <? 3)%nat = true.
Proof.
  apply (key_search_is_bounded id (λ k, (k <? 3)%nat) 11). lia.
Defined.

(** X26: a sweep at time 3600011 removes the session "K", idle since 10. *)
Lemma sweep_calls_in_any_order_witness :
  Stats.activeGamesCount
    (Stats.feed [(monday, Stats.call_removeGame "K")] loaded_service) = (-1)%Z ∧
  activeGames (step created (sweep 3600011)).1 !! "K" = None.
Proof.
  split.
  - rewrite (sweep_calls_in_any_order created 3600011
               [(monday, Stats.call_removeGame "K")] loaded_service).
    + vm_compute. reflexivity.
    + vm_compute. reflexivity.
  - vm_compute. reflexivity.
Defined.
